(** * MarketAdjuster: the market index and adjustment engine

    A shallow embedding of the engine functions of
    [market_condition_app_v4_15_premium_plus.py] and the properties the
    specification states about them.

    Numbers.  The engine computes on float64 values; it is modelled on
    Rocq's primitive binary64 floats, so rounding, NaN, infinities and
    exact-zero tests behave as in the source.  The outlier diagnostics call
    three numpy routines, [np.log], [np.linalg.inv] and [np.linalg.pinv]:
    these are parameters of the model, and the arithmetic around them is
    written out operation by operation, sums running from left to right.

    Data frames are lists of row records; a column is the list of one field. *)

From Stdlib Require Import String ZArith List Bool Lia Floats Sorting.Sorted.
Import ListNotations.

Set Warnings "-inexact-float".
Local Open Scope Z_scope.

(** * Calendar dates *)

(** [datetime.date]: the fields and the order Python compares dates by. *)
Record date : Type := mkdate { year : Z; month : Z; day : Z }.

Definition date_eqb (a b : date) : bool :=
  (year a =? year b) && (month a =? month b) && (day a =? day b).

Definition date_ltb (a b : date) : bool :=
  (year a <? year b)
  || ((year a =? year b)
      && ((month a <? month b)
          || ((month a =? month b) && (day a <? day b)))).

Definition date_leb (a b : date) : bool := date_ltb a b || date_eqb a b.

Definition date_lt (a b : date) : Prop := date_ltb a b = true.
Definition date_le (a b : date) : Prop := date_leb a b = true.

(** [month_start]: the first day of the month of [d]. *)
Definition month_start (d : date) : date := mkdate (year d) (month d) 1.

(** The proleptic Gregorian ordinal of a date, which is what the difference
    of two midnight timestamps counts in days. *)
Definition is_leap (y : Z) : bool :=
  (y mod 4 =? 0) && (negb (y mod 100 =? 0) || (y mod 400 =? 0)).

Definition days_before_year (y : Z) : Z :=
  let p := y - 1 in p * 365 + p / 4 - p / 100 + p / 400.

Definition days_before_month (y m : Z) : Z :=
  nth (Z.to_nat (m - 1)) [0; 31; 59; 90; 120; 151; 181; 212; 243; 273; 304; 334] 0
  + (if (2 <? m) && is_leap y then 1 else 0).

Definition toordinal (d : date) : Z :=
  days_before_year (year d) + days_before_month (year d) (month d) + day d.

(** [days_between d1 d2 = abs((Timestamp(d1) - Timestamp(d2)).days)]. *)
Definition days_between (d1 d2 : date) : Z := Z.abs (toordinal d1 - toordinal d2).

(** * Sale records *)

(** A row of the sales table: the [ContractDate] and [SoldPrice] columns.
    The price type is a parameter; the engine uses it at [float]. *)
Record sale (P : Type) : Type := mksale { ContractDate : option date; SoldPrice : P }.
Arguments mksale {P} _ _.
Arguments ContractDate {P} _.
Arguments SoldPrice {P} _.

(** * Float helpers *)

(** [pd.isna] on a float. *)
Definition isna (x : float) : bool := PrimFloat.is_nan x.

(** [np.isfinite]. *)
Definition isfinite (x : float) : bool :=
  negb (PrimFloat.is_nan x) && negb (PrimFloat.is_infinity x).

(** An integer as a float ([float(n)] for the small counts used here). *)
Definition float_of_Z (z : Z) : float :=
  match z with
  | Z0 => 0%float
  | Zpos p => PrimFloat.of_uint63 (Uint63.of_Z (Zpos p))
  | Zneg p => (- PrimFloat.of_uint63 (Uint63.of_Z (Zpos p)))%float
  end.

(** Lists updated by position: [col.iloc[i] = v].  Out of range the list is
    unchanged; the source only writes positions below the length. *)
Fixpoint set_nth {A : Type} (i : nat) (v : A) (l : list A) : list A :=
  match l, i with
  | [], _ => []
  | _ :: t, O => v :: t
  | h :: t, S j => h :: set_nth j v t
  end.

(** Ascending sort of a float column (no NaN is ever sorted here). *)
Fixpoint insert_float (x : float) (l : list float) : list float :=
  match l with
  | [] => [x]
  | h :: t => if (x <=? h)%float then x :: l else h :: insert_float x t
  end.

Definition sort_floats (l : list float) : list float := fold_right insert_float [] l.

(** The median of a group: the middle order statistic, or the mean of the
    two central ones for an even count; NaN for an empty group. *)
Definition median (l : list float) : float :=
  let s := sort_floats l in
  let n := length s in
  match n with
  | O => nan
  | _ => if Nat.odd n then nth (n / 2) s nan
         else ((nth (n / 2) s nan + nth (n / 2 - 1) s nan) / 2)%float
  end.

(** * Monthly Index Builder *)

(** A row of the monthly table. *)
Record bucket : Type := mkbucket {
  Month : date;
  SalesCount : Z;
  MedianPrice : float;
  ThinMonth : bool;
  Index_Raw : float
}.

(** [dropna(subset=["ContractDate", "SoldPrice"])], keeping the date of each
    surviving row. *)
Fixpoint dropna (df : list (sale float)) : list (date * float) :=
  match df with
  | [] => []
  | r :: t =>
      match ContractDate r with
      | Some d => if isna (SoldPrice r) then dropna t else (d, SoldPrice r) :: dropna t
      | None => dropna t
      end
  end.

(** The distinct group keys in ascending order, as [groupby] followed by
    [sort_values("Month")] lists them. *)
Fixpoint insert_key (k : date) (ks : list date) : list date :=
  match ks with
  | [] => [k]
  | h :: t =>
      if date_ltb k h then k :: ks
      else if date_eqb k h then ks
      else h :: insert_key k t
  end.

Definition group_keys (months : list date) : list date := fold_right insert_key [] months.

(** The prices of the rows whose month is [k]. *)
Definition group_prices (d : list (date * float)) (k : date) : list float :=
  map snd (filter (fun r => date_eqb (month_start (fst r)) k) d).

(** One loop iteration of the chain: row [i] from row [i - 1]. *)
Definition chain_step (med : list float) (raw : list float) (i : nat) : list float :=
  let prev := nth (i - 1) med nan in
  let cur := nth i med nan in
  if isna prev || (prev =? 0)%float || isna cur
  then set_nth i (nth (i - 1) raw nan) raw
  else set_nth i (nth (i - 1) raw nan * (cur / prev))%float raw.

(** The [Index_Raw] column: all NaN, then 1.00 in the first row and the loop
    over [range(1, len(m))]. *)
Definition index_raw_column (med : list float) : list float :=
  let n := length med in
  let col := repeat nan n in
  if (0 <? n)%nat
  then fold_left (chain_step med) (seq 1 (n - 1)) (set_nth 0 1.00%float col)
  else col.

(** The grouped table: one row per month present, with the [size] and
    [median] aggregates, ascending by month. *)
Definition monthly_agg (d : list (date * float)) : list (date * Z * float) :=
  map (fun k => (k, Z.of_nat (length (group_prices d k)), median (group_prices d k)))
      (group_keys (map (fun r => month_start (fst r)) d)).

Definition build_monthly_index_price (df : list (sale float)) (min_sales_per_month : Z)
  : list bucket :=
  let m := monthly_agg (dropna df) in
  let raw := index_raw_column (map snd m) in
  map (fun '((k, c, md), r) => mkbucket k c md (c <? min_sales_per_month) r)
      (combine m raw).

(** * Index Post-Processor *)

(** A row of the index table after post-processing: the monthly row and the
    three added columns. *)
Record index_row : Type := mkrow {
  base : bucket;
  Index_Smoothed : float;
  Index_Std : float;
  Index_Regression : float
}.

(** The bounds [start, end) of the centred window of size [w] at row [i] of
    [n] rows, clipped to the table. *)
Definition window_bounds (n w i : nat) : nat * nat :=
  let offset := ((w - 1) / 2)%nat in
  (Nat.min n (i + 1 + offset - w), Nat.min n (i + 1 + offset)).

(** The observations of a window: its values that are not NaN. *)
Definition window_obs (col : list float) (w i : nat) : list float :=
  let '(s, e) := window_bounds (length col) w i in
  filter (fun x => negb (isna x)) (firstn (e - s) (skipn s col)).

Definition fsum (l : list float) : float := fold_left PrimFloat.add l 0%float.

Definition fmean (l : list float) : float :=
  (fsum l / float_of_Z (Z.of_nat (length l)))%float.

(** [rolling(window=w, center=True, min_periods=1).mean()] at row [i]. *)
Definition rolling_mean (col : list float) (w i : nat) : float :=
  let obs := window_obs col w i in
  if (1 <=? length obs)%nat then fmean obs else nan.

(** [rolling(window=w, center=True, min_periods=2).std()] at row [i]: the
    sample standard deviation (one degree of freedom removed). *)
Definition rolling_std (col : list float) (w i : nat) : float :=
  let obs := window_obs col w i in
  if (2 <=? length obs)%nat
  then
    let mu := fmean obs in
    PrimFloat.sqrt
      (fsum (map (fun x => ((x - mu) * (x - mu))%float) obs)
       / float_of_Z (Z.of_nat (length obs) - 1))%float
  else nan.

(** [fillna(0)]. *)
Definition fillna0 (x : float) : float := if isna x then 0%float else x.

(** Boolean-mask selection [x[mask]]. *)
Fixpoint select {A : Type} (mask : list bool) (l : list A) : list A :=
  match mask, l with
  | b :: mt, x :: t => if b then x :: select mt t else select mt t
  | _, _ => []
  end.

Section PostProcessor.

(** [np.polyfit(x, y, 1)]: the two coefficients, highest degree first. *)
Variable polyfit : list float -> list float -> float * float.

Definition add_smoothed_and_regression (index_df : list bucket) (smooth_window : Z)
  : list index_row :=
  let w := Z.to_nat (Z.max 2 smooth_window) in
  let raw := map Index_Raw index_df in
  let n := length index_df in
  let smoothed := map (rolling_mean raw w) (seq 0 n) in
  let std := map (fun i => fillna0 (rolling_std raw w i)) (seq 0 n) in
  let x := map (fun i => float_of_Z (Z.of_nat i)) (seq 0 n) in
  let y := raw in
  let regression :=
    if (2 <=? n)%nat && (2 <=? length (filter isfinite y))%nat
    then
      let coef := polyfit (select (map isfinite y) x) (select (map isfinite y) y) in
      map (fun xi => (fst coef * xi + snd coef)%float) x
    else smoothed in
  map (fun '(b, s, sd, r) => mkrow b s sd r)
      (combine (combine (combine index_df smoothed) std) regression).

End PostProcessor.

(** * Index Lookup *)

(** The index column a caller reads. *)
Inductive index_col : Type := Col_Raw | Col_Smoothed | Col_Regression.

Definition column (c : index_col) (r : index_row) : float :=
  match c with
  | Col_Raw => Index_Raw (base r)
  | Col_Smoothed => Index_Smoothed r
  | Col_Regression => Index_Regression r
  end.

(** [sort_values("Month")] on rows. *)
Fixpoint insert_row (r : index_row) (l : list index_row) : list index_row :=
  match l with
  | [] => [r]
  | h :: t =>
      if date_leb (Month (base r)) (Month (base h)) then r :: l
      else h :: insert_row r t
  end.

Definition sort_by_month (l : list index_row) : list index_row :=
  fold_right insert_row [] l.

(** [lookup_index]: the value, the month used and the resolution mode. *)
Definition lookup_index (index_df : list index_row) (target_date : option date)
  (c : index_col) : float * option date * string :=
  match index_df, target_date with
  | [], _ => (nan, None, "no_index"%string)
  | _, None => (nan, None, "no_index"%string)
  | _, Some t =>
      let m := month_start t in
      match filter (fun r => date_eqb (Month (base r)) m) index_df with
      | r :: _ => (column c r, Some m, "exact"%string)
      | [] =>
          let prior :=
            sort_by_month (filter (fun r => date_leb (Month (base r)) m) index_df) in
          match rev prior with
          | [] => (nan, None, "no_prior"%string)
          | r :: _ => (column c r, Some (Month (base r)), "prior"%string)
          end
      end
  end.

(** * Adjustment Calculator *)

Definition pct_change (i_eff i_contract : float) : float :=
  if isna i_eff || isna i_contract || (i_contract =? 0)%float then nan
  else (i_eff / i_contract - 1.0)%float.

Definition categorize_adjustment (adj_pct threshold : float) : string :=
  if isna adj_pct then "N/A"%string
  else if (threshold <? adj_pct)%float then "Increasing"%string
  else if (adj_pct <? - threshold)%float then "Declining"%string
  else "Stable"%string.

Definition adjustment_direction (adj_pct threshold : float) : string :=
  if isna adj_pct || (abs adj_pct <? threshold)%float then "NO ADJUSTMENT"%string
  else if (0 <? adj_pct)%float then "UPWARD"%string
  else "DOWNWARD"%string.

(** The default thresholds of the two labels. *)
Definition category_threshold : float := 0.5%float.
Definition direction_threshold : float := 0.1%float.

(** A selected comparable: a cleaned sales row. *)
Record comparable : Type := mkcomp {
  comp_Address : string;
  comp_ContractDate : date;
  comp_SoldPrice : float
}.

(** A row of the adjustment table. *)
Record adjustment : Type := mkadj {
  Index_Contract : float;
  Index_Effective : float;
  DaysFromEffective : Z;
  AppliedAdj : bool;
  MktAdjPct : float;
  MktAdjDollar : float;
  Category : string;
  Direction : string
}.

(** The [MktAdjPct] and [MktAdj$] columns as first assigned, before the
    no-adjustment rows are overwritten. *)
Definition computed_pct (i_eff i_contract : float) : float :=
  (pct_change i_eff i_contract * 100.0)%float.

Definition computed_dollar (sold_price pct : float) : float :=
  (sold_price * (pct / 100.0))%float.

(** The adjustment row of one comparable, column by column as [main]
    assigns them. *)
Definition adjust_comparable (index_df : list index_row) (math_col : index_col)
  (eff_date : date) (no_adj_days : Z) (c : comparable) : adjustment :=
  let eff_index := fst (fst (lookup_index index_df (Some eff_date) math_col)) in
  let i_contract :=
    fst (fst (lookup_index index_df (Some (comp_ContractDate c)) math_col)) in
  let days := days_between (comp_ContractDate c) eff_date in
  let applied := no_adj_days <=? days in
  let pct0 := computed_pct eff_index i_contract in
  let dollar0 := computed_dollar (comp_SoldPrice c) pct0 in
  let pct := if negb applied then 0.0%float else pct0 in
  let dollar := if negb applied then 0.0%float else dollar0 in
  mkadj i_contract eff_index days applied pct dollar
        (categorize_adjustment pct category_threshold)
        (adjustment_direction pct direction_threshold).

Definition adjust_comparables (index_df : list index_row) (math_col : index_col)
  (eff_date : date) (no_adj_days : Z) (comps : list comparable) : list adjustment :=
  map (adjust_comparable index_df math_col eff_date no_adj_days) comps.

(** * Outlier Diagnostics *)

(** ** Distribution rule *)

(** numpy's [_lerp], which [np.percentile] interpolates with: the order
    statistics [a] and [b] around the position and its fractional part
    [t]. *)
Definition lerp (a b t : float) : float :=
  let diff_b_a := (b - a)%float in
  if (0.5 <=? t)%float then (b - diff_b_a * (1 - t))%float
  else (a + diff_b_a * t)%float.

(** [Series.quantile(num / 4)] with linear interpolation, which pandas hands
    to [np.percentile] on the values that are not NaN.  With the [n] values
    in ascending order the position is [(n - 1) * num / 4]; numpy reads the
    order statistics [previous] and [next] around it and interpolates by its
    fractional part [gamma].  The position, its floor and its fractional
    part (a multiple of one quarter) are exact in binary64. *)
Definition order_statistics (s : list float) : list float :=
  sort_floats (filter (fun x => negb (isna x)) s).

Definition quantile_previous (s : list float) (num : nat) : float :=
  let arr := order_statistics s in
  nth ((length arr - 1) * num / 4) arr nan.

Definition quantile_next (s : list float) (num : nat) : float :=
  let arr := order_statistics s in
  nth (Nat.min ((length arr - 1) * num / 4 + 1) (length arr - 1)) arr nan.

Definition quantile_gamma (s : list float) (num : nat) : float :=
  (float_of_Z (Z.of_nat (((length (order_statistics s) - 1) * num) mod 4)) / 4)%float.

(** NaN when no value is left. *)
Definition quantile (s : list float) (num : nat) : float :=
  match order_statistics s with
  | [] => nan
  | _ => lerp (quantile_previous s num) (quantile_next s num) (quantile_gamma s num)
  end.

(** [compute_iqr_flags_cached]: a comparison with a NaN bound, or of a NaN
    price, is false. *)
Definition compute_iqr_flags_cached (sold_prices : list float) (k : float) : list bool :=
  let q1 := quantile sold_prices 1 in
  let q3 := quantile sold_prices 3 in
  let iqr := (q3 - q1)%float in
  let lo := (q1 - k * iqr)%float in
  let hi := (q3 + k * iqr)%float in
  map (fun s => (s <? lo)%float || (hi <? s)%float) sold_prices.

(** ** Regression-residual rule *)

(** Two-by-two float matrices, row by row. *)
Record mat2 : Type := mkmat2 { m11 : float; m12 : float; m21 : float; m22 : float }.

(** [np.maximum] on two floats: NaN if either is. *)
Definition np_maximum (a b : float) : float :=
  if isna a then a else if isna b then b
  else if (a <? b)%float then b else a.

(** [np.std]: the population standard deviation. *)
Definition np_std (l : list float) : float :=
  let mu := fmean l in
  PrimFloat.sqrt
    (fsum (map (fun r => ((r - mu) * (r - mu))%float) l)
     / float_of_Z (Z.of_nat (length l)))%float.

(** The earliest date of a column, as an ordinal. *)
Definition min_ordinal (l : list date) : Z :=
  match l with
  | [] => 0%Z
  | d :: t => fold_right (fun e acc => Z.min (toordinal e) acc) (toordinal d) t
  end.

(** A row of the diagnostics table. *)
Record diag_row : Type := mkdiag {
  diag_date : date;
  diag_price : float;
  Leverage : float;
  CooksD : float;
  HighLeverage : bool;
  HighCooksD : bool
}.

Section Regression.

Local Open Scope float_scope.

(** The numpy routines the regression calls: [np.log], and [np.linalg.inv]
    ([None] when it raises [LinAlgError]) with [np.linalg.pinv]. *)
Variable np_log : float -> float.
Variable np_linalg_inv : mat2 -> option mat2.
Variable np_linalg_pinv : mat2 -> mat2.

(** The table after [dropna]; every intermediate of the source follows, by
    name. *)
Variable out : list (date * float).

Definition reg_n : nat := length out.
Definition reg_p : float := 2.
Definition reg_t0 : Z := min_ordinal (map fst out).
Definition reg_x1 : list float :=
  map (fun r => float_of_Z (toordinal (fst r) - reg_t0)%Z) out.
Definition reg_y : list float := map (fun r => np_log (np_maximum 1.0 (snd r))) out.

(** [X.T @ X] for [X = column_stack([ones, x1])]. *)
Definition reg_XtX : mat2 :=
  mkmat2 (fsum (map (fun x => 1 * 1) reg_x1)) (fsum (map (fun x => 1 * x) reg_x1))
         (fsum (map (fun x => x * 1) reg_x1)) (fsum (map (fun x => x * x) reg_x1)).

Definition reg_XtX_inv : mat2 :=
  match np_linalg_inv reg_XtX with
  | Some m => m
  | None => np_linalg_pinv reg_XtX
  end.

(** [X.T @ y]. *)
Definition reg_Xty : float * float :=
  (fsum (map (fun xy => 1 * snd xy) (combine reg_x1 reg_y)),
   fsum (map (fun xy => fst xy * snd xy) (combine reg_x1 reg_y))).

Definition reg_beta : float * float :=
  (m11 reg_XtX_inv * fst reg_Xty + m12 reg_XtX_inv * snd reg_Xty,
   m21 reg_XtX_inv * fst reg_Xty + m22 reg_XtX_inv * snd reg_Xty).

Definition reg_yhat : list float :=
  map (fun x => 1 * fst reg_beta + x * snd reg_beta) reg_x1.

Definition reg_resid : list float :=
  map (fun yy => fst yy - snd yy) (combine reg_y reg_yhat).

(** [np.sum((X @ XtX_inv) * X, axis=1)]. *)
Definition reg_H : list float :=
  map (fun x => (1 * m11 reg_XtX_inv + x * m21 reg_XtX_inv) * 1
                + (1 * m12 reg_XtX_inv + x * m22 reg_XtX_inv) * x) reg_x1.

Definition reg_mse : float :=
  fsum (map (fun r => r * r) reg_resid)
  / float_of_Z (Z.max 1 (Z.of_nat reg_n - 2))%Z.

Definition reg_eps : float := 1e-12.

(** One entry of [cooks], from the residual and the leverage of the row. *)
Definition cooks_entry (mse r h : float) : float :=
  (r * r / (reg_p * (mse + reg_eps)))
  * (h / (np_maximum reg_eps (1 - h) * np_maximum reg_eps (1 - h))).

Definition reg_cooks : list float :=
  map (fun rh => cooks_entry reg_mse (fst rh) (snd rh)) (combine reg_resid reg_H).

Definition reg_resid_std : float :=
  if (0 <? np_std reg_resid) then np_std reg_resid else 1.0.

Definition reg_studentized : list float :=
  map (fun r => abs r / reg_resid_std) reg_resid.

Definition reg_cook_thresh : float := 4 / float_of_Z (Z.of_nat reg_n).

(** The two columns of flags. *)
Definition reg_HighLeverage : list bool := map (fun s => 2.0 <? s) reg_studentized.
Definition reg_HighCooksD : list bool := map (fun c => reg_cook_thresh <? c) reg_cooks.

End Regression.

Section Diagnostics.

Variable np_log : float -> float.
Variable np_linalg_inv : mat2 -> option mat2.
Variable np_linalg_pinv : mat2 -> mat2.

Definition cooks_distance_time_regression (df : list (sale float)) : list diag_row :=
  let out := dropna df in
  if (length out <? 6)%nat
  then map (fun r => mkdiag (fst r) (snd r) nan nan false false) out
  else
    map (fun '(r, h, c, (hl, hc)) => mkdiag (fst r) (snd r) h c hl hc)
        (combine (combine (combine out (reg_H np_linalg_inv np_linalg_pinv out))
                          (reg_cooks np_log np_linalg_inv np_linalg_pinv out))
                 (combine (reg_HighLeverage np_log np_linalg_inv np_linalg_pinv out)
                          (reg_HighCooksD np_log np_linalg_inv np_linalg_pinv out))).

End Diagnostics.

(** * Definitions used by the statements *)

(** ** The chain loop, iteration by iteration *)

(** The [Index_Raw] column after the first [k] iterations of the loop. *)
Definition raw_after (med : list float) (k : nat) : list float :=
  fold_left (chain_step med) (seq 1 k)
            (set_nth 0 1.00%float (repeat nan (length med))).

(** The value one iteration writes, from the two medians and the previous
    index. *)
Definition chained (prev_med cur_med prev_raw : float) : float :=
  if isna prev_med || (prev_med =? 0)%float || isna cur_med
  then prev_raw
  else (prev_raw * (cur_med / prev_med))%float.

(** Rows compared by month. *)
Definition month_le (a b : index_row) : Prop :=
  date_le (Month (base a)) (Month (base b)).

(** ** The adjustment rule as the specification words it *)

(** The statement of C4 read on the adjustment row of one comparable. *)
Definition na_rule_as_stated (index_df : list index_row) (math_col : index_col)
  (eff_date : date) (no_adj_days : Z) (c : comparable) : Prop :=
  let a := adjust_comparable index_df math_col eff_date no_adj_days c in
  if isna (Index_Effective a) || isna (Index_Contract a)
     || (Index_Contract a =? 0)%float
  then isna (MktAdjPct a) = true
  else MktAdjPct a = ((Index_Effective a / Index_Contract a - 1.0) * 100.0)%float
       /\ MktAdjDollar a = (comp_SoldPrice c * (MktAdjPct a / 100.0))%float.

(** ** The regression, row by row *)

Section RegressionRows.

Local Open Scope float_scope.

Variable np_log : float -> float.
Variable np_linalg_inv : mat2 -> option mat2.
Variable np_linalg_pinv : mat2 -> mat2.
Variable out : list (date * float).

(** The elapsed days and the clamped logarithm of the price of a row, its
    residual, its leverage and its entry in [cooks]. *)
Definition row_x (r : date * float) : float :=
  float_of_Z (toordinal (fst r) - min_ordinal (map fst out))%Z.

Definition row_y (r : date * float) : float := np_log (np_maximum 1.0 (snd r)).

Definition row_resid (r : date * float) : float :=
  row_y r - (1 * fst (reg_beta np_log np_linalg_inv np_linalg_pinv out)
             + row_x r * snd (reg_beta np_log np_linalg_inv np_linalg_pinv out)).

Definition row_H (r : date * float) : float :=
  let i := reg_XtX_inv np_linalg_inv np_linalg_pinv out in
  (1 * m11 i + row_x r * m21 i) * 1 + (1 * m12 i + row_x r * m22 i) * row_x r.

Definition row_cooks (r : date * float) : float :=
  cooks_entry (reg_mse np_log np_linalg_inv np_linalg_pinv out) (row_resid r) (row_H r).

(** The statistic [D] as the specification writes it:
    [(residual^2 / (p * mse)) * (H / (1 - H)^2)]. *)
Definition cooks_as_specified (r : date * float) : float :=
  (row_resid r * row_resid r
   / (reg_p * reg_mse np_log np_linalg_inv np_linalg_pinv out))
  * (row_H r / ((1 - row_H r) * (1 - row_H r))).

End RegressionRows.

(** The high-influence part of C5 read with the statistic of the
    specification: on a table of at least six valid rows, a row is flagged
    exactly when that statistic exceeds [4 / n]. *)
Definition high_influence_as_stated (np_log : float -> float)
  (np_linalg_inv : mat2 -> option mat2) (np_linalg_pinv : mat2 -> mat2)
  (df : list (sale float)) : Prop :=
  let out := dropna df in
  (6 <= length out)%nat ->
  map HighCooksD (cooks_distance_time_regression np_log np_linalg_inv np_linalg_pinv df)
  = map (fun r => (4 / float_of_Z (Z.of_nat (length out))
                   <? cooks_as_specified np_log np_linalg_inv np_linalg_pinv out r)%float)
        out.

(** ** Scaling a price column *)

(** Every price multiplied by [c]. *)
Definition scale_prices (c : float) (sold_prices : list float) : list float :=
  map (fun p => (c * p)%float) sold_prices.

(** The statement of C7 at one price list, multiplier and constant. *)
Definition iqr_flags_scale_invariant_at (sold_prices : list float) (k c : float) : Prop :=
  (0 <? k)%float = true -> (0 <? c)%float = true ->
  compute_iqr_flags_cached (scale_prices c sold_prices) k
  = compute_iqr_flags_cached sold_prices k.

(** ** Scaling by a power of two *)

(** The binary64 value [x] with [j] added to its exponent, which is [x]
    times [2^j] while the exponent stays in range, and an infinity
    beyond. *)
Definition sf_shift (j : Z) (x : spec_float) : spec_float :=
  match x with
  | S754_finite s m e =>
      if e + j <=? 971 then S754_finite s m (e + j) else S754_infinity s
  | _ => x
  end.

(** Zero, or a number that is normal and of magnitude at least [2^-1021],
    and so is its product with [2^j], which is finite. *)
Definition sf_scalable (j : Z) (x : spec_float) : bool :=
  match x with
  | S754_zero _ => true
  | S754_finite _ _ e => (-1073 <=? e) && (-1073 <=? e + j) && (e + j <=? 971)
  | _ => false
  end.

(** A zero of either sign. *)
Definition sf_is_zero (x : spec_float) : bool :=
  match x with S754_zero _ => true | _ => false end.

(** The same on a float. *)
Definition scalable (j : Z) (x : float) : bool := sf_scalable j (Prim2SF x).

(** A product that is scalable and is zero only when a factor is. *)
Definition product_scalable (j : Z) (x y : float) : bool :=
  scalable j (x * y)
  && (negb (x * y =? 0)%float || (x =? 0)%float || (y =? 0)%float).

(** Every value an interpolation reads or computes is scalable. *)
Definition lerp_scalable (j : Z) (a b t : float) : bool :=
  scalable j a && scalable j b && scalable j (b - a)
  && (if (0.5 <=? t)%float
      then product_scalable j (b - a) (1 - t)
           && scalable j (b - (b - a) * (1 - t))
      else product_scalable j (b - a) t
           && scalable j (a + (b - a) * t)).

(** Every price and every intermediate result of [compute_iqr_flags_cached]
    is scalable: multiplying by [2^j] neither overflows nor meets a number
    below [2^-1021] in magnitude. *)
Definition scaling_is_exact (j : Z) (sold_prices : list float) (k : float) : bool :=
  let q1 := quantile sold_prices 1 in
  let q3 := quantile sold_prices 3 in
  let iqr := (q3 - q1)%float in
  forallb (scalable j) sold_prices
  && lerp_scalable j (quantile_previous sold_prices 1) (quantile_next sold_prices 1)
                   (quantile_gamma sold_prices 1)
  && lerp_scalable j (quantile_previous sold_prices 3) (quantile_next sold_prices 3)
                   (quantile_gamma sold_prices 3)
  && scalable j iqr
  && product_scalable j k iqr
  && scalable j (q1 - k * iqr)
  && scalable j (q3 + k * iqr).

(** [y] is [x] times [2^j], exactly. *)
Definition scaled_by (j : Z) (x y : float) : Prop :=
  Prim2SF y = sf_shift j (Prim2SF x).

(** A scalable value and its scaled copy. *)
Definition scaled_pair (j : Z) (x y : float) : Prop :=
  scaled_by j x y /\ scalable j x = true.

(** [c] is [2^j]. *)
Definition power_of_two (c : float) (j : Z) : Prop :=
  Prim2SF c = S754_finite false 4503599627370496 (j - 52).

(** The conditions under which the two shifts of a rounding step are the
    same at an exponent and [j] above it: both the mantissa and its rounded
    shift stay above the subnormal range, and the result is finite. *)
Definition shift_invariant (m e : Z) (l : location) (j : Z) : Prop :=
  let r1 := shr_fexp prec emax m e l in
  let m1 := round_nearest_even (shr_m (fst r1)) (loc_of_shr_record (fst r1)) in
  let r2 := shr_fexp prec emax m1 (snd r1) loc_Exact in
  (-1021 <= Zdigits2 m + e /\ -1021 <= Zdigits2 m + e + j)
  /\ (-1021 <= Zdigits2 m1 + snd r1 /\ -1021 <= Zdigits2 m1 + snd r1 + j)
  /\ snd r2 <= 971.

(** ** Signs and zeros of binary64 values *)

(** A zero of either sign, or NaN. *)
Definition sf_zero_or_nan (x : spec_float) : bool :=
  match x with S754_zero _ | S754_nan => true | _ => false end.

(** [x] is NaN or compares equal to [p]. *)
Definition sf_same_or_nan (x p : spec_float) : bool :=
  match x with
  | S754_nan => true
  | _ => match SFcompare x p with Some Eq => true | _ => false end
  end.

(** NaN, or with the sign bit clear. *)
Definition sf_plus (x : spec_float) : bool :=
  match x with
  | S754_nan => true
  | S754_zero s | S754_infinity s | S754_finite s _ _ => negb s
  end.

(** * Example data *)

(** Scenario A of the specification: two months, one sale each. *)
Definition scenario_A_sales : list (sale float) :=
  [mksale (Some (mkdate 2024 1 1)) 300000%float;
   mksale (Some (mkdate 2024 2 1)) 310000%float].

(** A one-month index table, and a comparable under contract on 5 January
    2024. *)
Definition january_index : list index_row :=
  [mkrow (mkbucket (mkdate 2024 1 1) 3 300000%float false 1.00%float)
         1.00%float 0%float 1.00%float].

Definition january_comp : comparable :=
  mkcomp "12 Elm St" (mkdate 2024 1 5) 400000%float.

(** Scenario B of the specification: contract index 1.02, effective index
    1.05, sold price 400,000, 120 days apart, threshold 90. *)
Definition scenario_B_index : list index_row :=
  [mkrow (mkbucket (mkdate 2024 1 1) 5 300000%float false 1.02%float)
         1.02%float 0%float 1.02%float;
   mkrow (mkbucket (mkdate 2024 5 1) 5 310000%float false 1.05%float)
         1.05%float 0%float 1.05%float].

Definition scenario_B_comp : comparable :=
  mkcomp "7 Oak Ave" (mkdate 2024 1 10) 400000%float.


(** Scenario D of the specification: one price ten times the others. *)
Definition scenario_D_prices : list float := [100; 101; 99; 1000; 100]%float.

(** Five prices whose upper bound for [k = 1.5] is the highest price
    itself. *)
Definition boundary_prices : list float :=
  [100000; 100000; 110000; 120000; 150000]%float.

(** ** Library routines for the examples *)

(** [np.log] at the prices of the examples, to the nearest binary64 value;
    NaN elsewhere. *)
Definition np_log_at_examples (x : float) : float :=
  if (x =? 1)%float then 0%float
  else if (x =? 1.000001)%float then 9.999994999180668e-07%float
  else if (x =? 140000)%float then 11.84939770159144%float
  else if (x =? 250000)%float then 12.429216196844383%float
  else if (x =? 100000)%float then 11.512925464970229%float
  else if (x =? 200000)%float then 12.206072645530174%float
  else if (x =? 400000)%float then 12.899219826090119%float
  else if (x =? 800000)%float then 13.592367006650065%float
  else if (x =? 1600000)%float then 14.28551418721001%float
  else if (x =? 3200000)%float then 14.978661367769956%float
  else nan.

(** An inverse of a two-by-two matrix by elimination with partial pivoting
    and back-substitution on the columns of the identity, the method of
    LAPACK's [gesv], which [np.linalg.inv] calls; [None] on a zero pivot. *)
Definition lu_inverse (a : mat2) : option mat2 :=
  let swap := (abs (m11 a) <? abs (m21 a))%float in
  let '(u11, u12, r21, r22) :=
    if swap then (m21 a, m22 a, m11 a, m12 a) else (m11 a, m12 a, m21 a, m22 a) in
  if (u11 =? 0)%float then None
  else
    let l := (r21 / u11)%float in
    let u22 := (r22 - l * u12)%float in
    if (u22 =? 0)%float then None
    else
      let solve := fun b1 b2 : float =>
        let x2 := ((b2 - l * b1) / u22)%float in
        (((b1 - u12 * x2) / u11)%float, x2) in
      let c1 := if swap then solve 0%float 1%float else solve 1%float 0%float in
      let c2 := if swap then solve 1%float 0%float else solve 0%float 1%float in
      Some (mkmat2 (fst c1) (fst c2) (snd c1) (snd c2)).

(** The pseudo-inverse of a matrix of rank at most one, the only case the
    regression reaches [np.linalg.pinv] in: the transpose over the squared
    Frobenius norm, and zero for the zero matrix. *)
Definition pinv_rank_one (a : mat2) : mat2 :=
  let f := (m11 a * m11 a + m12 a * m12 a + m21 a * m21 a + m22 a * m22 a)%float in
  if (f =? 0)%float then mkmat2 0 0 0 0
  else mkmat2 (m11 a / f) (m21 a / f) (m12 a / f) (m22 a / f).

(** Six sales on six consecutive days, all at the same price. *)
Definition flat_sales : list (sale float) :=
  [mksale (Some (mkdate 2024 1 1)) 140000%float;
   mksale (Some (mkdate 2024 1 2)) 140000%float;
   mksale (Some (mkdate 2024 1 3)) 140000%float;
   mksale (Some (mkdate 2024 1 4)) 140000%float;
   mksale (Some (mkdate 2024 1 5)) 140000%float;
   mksale (Some (mkdate 2024 1 6)) 140000%float].

(** The same six days at another price. *)
Definition flat_sales_250 : list (sale float) :=
  map (fun r => mksale (ContractDate r) 250000%float) flat_sales.

(** Six sales on six consecutive days: five at the same price, the last one
    a millionth above it. *)
Definition near_flat_sales : list (sale float) :=
  [mksale (Some (mkdate 2024 1 1)) 1%float;
   mksale (Some (mkdate 2024 1 2)) 1%float;
   mksale (Some (mkdate 2024 1 3)) 1%float;
   mksale (Some (mkdate 2024 1 4)) 1%float;
   mksale (Some (mkdate 2024 1 5)) 1%float;
   mksale (Some (mkdate 2024 1 6)) 1.000001%float].

(** Six sales whose prices lie exactly on the line
    [100000 + 100000 * days]: 0, 1, 3, 7, 15 and 31 days after the first. *)
Definition price_line_sales : list (sale float) :=
  [mksale (Some (mkdate 2024 1 1)) 100000%float;
   mksale (Some (mkdate 2024 1 2)) 200000%float;
   mksale (Some (mkdate 2024 1 4)) 400000%float;
   mksale (Some (mkdate 2024 1 8)) 800000%float;
   mksale (Some (mkdate 2024 1 16)) 1600000%float;
   mksale (Some (mkdate 2024 2 1)) 3200000%float].

(** * Further functions of the source *)

(** [build_index_cached]: the monthly table, then the post-processor. *)
Definition build_index_cached
  (polyfit : list float -> list float -> float * float)
  (sales : list (sale float)) (min_sales smooth_window : Z) : list index_row :=
  add_smoothed_and_regression polyfit (build_monthly_index_price sales min_sales)
                              smooth_window.

(** The sum of an integer column. *)
Definition zsum (l : list Z) : Z := fold_right Z.add 0 l.


(** A row of the diagnostics screen: the three flags, their disjunction and
    the reason shown for it. *)
Record flagged_row : Type := mkflagged {
  flag_date : date;
  flag_price : float;
  IQR_Outlier : bool;
  Row_HighLeverage : bool;
  Row_HighCooksD : bool;
  Flagged : bool;
  FlagReason : string
}.

(** [_flag_reason]: the names of the rules that fired, joined by [" + "]. *)
Definition flag_reason (iqr high_leverage high_cooks : bool) : string :=
  String.concat " + "
    ((if iqr then ["IQR"%string] else [])
     ++ (if high_leverage then ["Price Dev"%string] else [])
     ++ (if high_cooks then ["Cook's D"%string] else [])).

(** Step 3 of [main] on the filtered table [df_f]: the IQR flags when that
    rule is switched on; with the regression rule switched on the table
    becomes the one [cooks_distance_time_regression] returns, which keeps
    the rows that have a price; then [Flagged] and [FlagReason]. *)
Definition run_diagnostics (np_log : float -> float)
  (np_linalg_inv : mat2 -> option mat2) (np_linalg_pinv : mat2 -> mat2)
  (df_f : list (date * float)) (use_iqr : bool)
  (iqr_multiplier : float) (use_cooks : bool) : list flagged_row :=
  let iqr :=
    if use_iqr then compute_iqr_flags_cached (map snd df_f) iqr_multiplier
    else map (fun _ => false) df_f in
  let table := combine df_f iqr in
  let kept :=
    if use_cooks then filter (fun ri => negb (isna (snd (fst ri)))) table
    else table in
  let reg :=
    if use_cooks
    then map (fun r => (HighLeverage r, HighCooksD r))
             (cooks_distance_time_regression np_log np_linalg_inv np_linalg_pinv
                (map (fun ri => mksale (Some (fst (fst ri))) (snd (fst ri))) kept))
    else map (fun _ => (false, false)) kept in
  map (fun '((r, i), (hl, hc)) =>
         mkflagged (fst r) (snd r) i hl hc (i || hl || hc) (flag_reason i hl hc))
      (combine kept reg).

(** [a == b] on two optional strings ([dict.get] gives [None] for a missing
    key). *)
Definition opt_string_eqb (a b : option string) : bool :=
  match a, b with
  | Some x, Some y => String.eqb x y
  | None, None => true
  | _, _ => false
  end.

Section History.

(** What a history entry holds besides the three fields the history
    functions read. *)
Variable payload : Type.

(** An entry of the history file. *)
Record report : Type := mkreport {
  report_id : option string;
  subject_address : option string;
  report_eff_date : option string;
  report_rest : payload
}.

(** The test of the update loop: same subject address and effective date. *)
Definition same_report (report_data r : report) : bool :=
  opt_string_eqb (subject_address r) (subject_address report_data)
  && opt_string_eqb (report_eff_date r) (report_eff_date report_data).

(** The first index of an entry for the same address and date, as the
    [for ... break] loop finds it. *)
Fixpoint existing_idx (report_data : report) (history : list report) : option nat :=
  match history with
  | [] => None
  | r :: t =>
      if same_report report_data r then Some O
      else option_map S (existing_idx report_data t)
  end.

(** [save_report_to_history] on the loaded history: update in place or
    insert in front, then keep 50 entries. *)
Definition save_report_to_history (history : list report) (report_data : report)
  : list report :=
  let history' :=
    match existing_idx report_data history with
    | Some i => set_nth i report_data history
    | None => report_data :: history
    end in
  firstn 50 history'.

(** [delete_report_from_history] on the loaded history. *)
Definition delete_report_from_history (history : list report) (rid : string)
  : list report :=
  filter (fun r => negb (opt_string_eqb (report_id r) (Some rid))) history.

(** The pair an entry is identified by when a report is saved. *)
Definition report_key (r : report) : option string * option string :=
  (subject_address r, report_eff_date r).

End History.

Arguments mkreport {payload} _ _ _ _.
Arguments report_id {payload} _.
Arguments subject_address {payload} _.
Arguments report_eff_date {payload} _.
Arguments report_rest {payload} _.
Arguments same_report {payload} _ _.
Arguments existing_idx {payload} _ _.
Arguments save_report_to_history {payload} _ _.
Arguments delete_report_from_history {payload} _ _.
Arguments report_key {payload} _.

(** * Further example data *)

(** One month with two sales, one with a single sale. *)
Definition three_sales : list (sale float) :=
  [mksale (Some (mkdate 2024 1 3)) 300000%float;
   mksale (Some (mkdate 2024 2 7)) 320000%float;
   mksale (Some (mkdate 2024 1 20)) 310000%float].


(** A cleaned table of one sale. *)
Definition one_sale_table : list (date * float) := [(mkdate 2024 1 1, 100000%float)].

(** Two saved reports, newest first. *)
Definition two_reports : list (report unit) :=
  [mkreport (Some "20240509120000000000"%string) (Some "7 Oak Ave"%string)
            (Some "2024-05-09"%string) tt;
   mkreport (Some "20240401090000000000"%string) (Some "12 Elm St"%string)
            (Some "2024-04-01"%string) tt].

Definition elm_again : report unit :=
  mkreport (Some "20240601080000000000"%string) (Some "12 Elm St"%string)
           (Some "2024-04-01"%string) tt.

(** A report for an address the history does not hold. *)
Definition new_report : report unit :=
  mkreport (Some "20240702101500000000"%string) (Some "3 Birch Ln"%string)
           (Some "2024-07-02"%string) tt.


(** * Properties *)

(** ** The order on dates *)

Lemma date_eqb_eq (a b : date) : date_eqb a b = true <-> a = b.
Proof.
  unfold date_eqb. destruct a as [ya ma da], b as [yb mb db]; simpl.
  rewrite !andb_true_iff, !Z.eqb_eq. split.
  - intros [[-> ->] ->]. reflexivity.
  - intros H. injection H as -> -> ->. auto.
Qed.

Lemma date_ltb_irrefl (a : date) : date_ltb a a = false.
Proof.
  unfold date_ltb. rewrite !Z.ltb_irrefl, !Z.eqb_refl. reflexivity.
Qed.

Lemma date_ltb_trans (a b c : date) :
  date_ltb a b = true -> date_ltb b c = true -> date_ltb a c = true.
Proof.
  unfold date_ltb.
  rewrite !orb_true_iff, !andb_true_iff, !orb_true_iff, !andb_true_iff,
    !Z.ltb_lt, !Z.eqb_eq.
  lia.
Qed.

Lemma date_ltb_total (a b : date) :
  date_ltb a b = false -> date_eqb a b = false -> date_ltb b a = true.
Proof.
  unfold date_ltb, date_eqb.
  rewrite !orb_false_iff, !andb_false_iff, !orb_false_iff, !andb_false_iff,
    !orb_true_iff, !andb_true_iff, !orb_true_iff, !andb_true_iff,
    !Z.ltb_lt, !Z.ltb_ge, !Z.eqb_eq, !Z.eqb_neq.
  lia.
Qed.

Lemma date_leb_spec (a b : date) : date_leb a b = true <-> date_lt a b \/ a = b.
Proof.
  unfold date_leb, date_lt. rewrite orb_true_iff, date_eqb_eq. reflexivity.
Qed.

(** ** Group keys are strictly ascending *)

Lemma insert_key_In (k x : date) (ks : list date) :
  In x (insert_key k ks) -> x = k \/ In x ks.
Proof.
  induction ks as [|h t IH]; simpl.
  - intros [<-|[]]. now left.
  - destruct (date_ltb k h).
    + simpl. intros [<-|H]; auto.
    + destruct (date_eqb k h).
      * auto.
      * simpl. intros [<-|H]; auto. destruct (IH H); auto.
Qed.

Lemma insert_key_sorted (k : date) (ks : list date) :
  StronglySorted date_lt ks -> StronglySorted date_lt (insert_key k ks).
Proof.
  induction 1 as [|h t Hs IH Hall]; simpl.
  - repeat constructor.
  - destruct (date_ltb k h) eqn:Hlt.
    + constructor.
      * constructor; assumption.
      * constructor; [exact Hlt|].
        rewrite Forall_forall in *. intros x Hx.
        eapply date_ltb_trans; [exact Hlt|]. apply Hall, Hx.
    + destruct (date_eqb k h) eqn:Heq.
      * constructor; assumption.
      * constructor; [exact IH|].
        rewrite Forall_forall in *. intros x Hx.
        destruct (insert_key_In _ _ _ Hx) as [->|Hin].
        -- apply date_ltb_total; assumption.
        -- apply Hall, Hin.
Qed.

Lemma group_keys_sorted (months : list date) :
  StronglySorted date_lt (group_keys months).
Proof.
  induction months as [|k t IH]; simpl.
  - constructor.
  - apply insert_key_sorted, IH.
Qed.

Lemma insert_key_nonempty (k : date) (ks : list date) : insert_key k ks <> [].
Proof.
  destruct ks as [|h t]; simpl; [discriminate|].
  destruct (date_ltb k h); [discriminate|].
  destruct (date_eqb k h); discriminate.
Qed.

Lemma group_keys_nonempty (months : list date) :
  months <> [] -> group_keys months <> [].
Proof.
  destruct months as [|k t]; [congruence|]. intros _. apply insert_key_nonempty.
Qed.

(** ** Positional updates *)

Lemma set_nth_length {A : Type} (i : nat) (v : A) (l : list A) :
  length (set_nth i v l) = length l.
Proof.
  revert i. induction l as [|h t IH]; intros [|j]; simpl; auto.
Qed.

Lemma set_nth_same {A : Type} (i : nat) (v d : A) (l : list A) :
  (i < length l)%nat -> nth i (set_nth i v l) d = v.
Proof.
  revert i. induction l as [|h t IH]; intros [|j] H; simpl in *; try lia; auto.
  apply IH. lia.
Qed.

Lemma set_nth_other {A : Type} (i j : nat) (v d : A) (l : list A) :
  i <> j -> nth j (set_nth i v l) d = nth j l d.
Proof.
  revert i j. induction l as [|h t IH]; intros [|i] [|j] H; simpl; auto; try congruence.
Qed.

(** ** The chain loop *)

Lemma chain_step_length (med raw : list float) (i : nat) :
  length (chain_step med raw i) = length raw.
Proof.
  unfold chain_step.
  destruct (isna (nth (i - 1) med nan) || (nth (i - 1) med nan =? 0)%float
            || isna (nth i med nan)); apply set_nth_length.
Qed.

Lemma chain_step_other (med raw : list float) (i j : nat) :
  i <> j -> nth j (chain_step med raw i) nan = nth j raw nan.
Proof.
  intros H. unfold chain_step.
  destruct (isna (nth (i - 1) med nan) || (nth (i - 1) med nan =? 0)%float
            || isna (nth i med nan)); apply set_nth_other; exact H.
Qed.

Lemma chain_step_same (med raw : list float) (i : nat) :
  (i < length raw)%nat ->
  nth (S i - 1) raw nan = nth i raw nan ->
  nth (S i) (chain_step med raw (S i)) nan
  = if (S i <? length raw)%nat
    then chained (nth i med nan) (nth (S i) med nan) (nth i raw nan)
    else nan.
Proof.
  intros Hi _. unfold chain_step, chained.
  replace (S i - 1)%nat with i by lia.
  destruct (S i <? length raw)%nat eqn:Hlt.
  - apply Nat.ltb_lt in Hlt.
    destruct (isna (nth i med nan) || (nth i med nan =? 0)%float
              || isna (nth (S i) med nan)); apply set_nth_same; exact Hlt.
  - apply Nat.ltb_ge in Hlt.
    destruct (isna (nth i med nan) || (nth i med nan =? 0)%float
              || isna (nth (S i) med nan));
      apply nth_overflow; rewrite set_nth_length; exact Hlt.
Qed.

Lemma raw_after_S (med : list float) (k : nat) :
  raw_after med (S k) = chain_step med (raw_after med k) (S k).
Proof.
  unfold raw_after. rewrite seq_S, fold_left_app. reflexivity.
Qed.

Lemma raw_after_length (med : list float) (k : nat) :
  length (raw_after med k) = length med.
Proof.
  induction k as [|k IH].
  - unfold raw_after. cbn [seq fold_left]. rewrite set_nth_length, repeat_length. reflexivity.
  - rewrite raw_after_S, chain_step_length. exact IH.
Qed.

Lemma raw_after_stable (med : list float) (k j i : nat) :
  (i <= k)%nat -> nth i (raw_after med (k + j)) nan = nth i (raw_after med k) nan.
Proof.
  intros Hi. induction j as [|j IH].
  - rewrite Nat.add_0_r. reflexivity.
  - rewrite Nat.add_succ_r, raw_after_S, chain_step_other by lia. exact IH.
Qed.

Lemma raw_after_first (med : list float) (k : nat) :
  med <> [] -> nth 0 (raw_after med k) nan = 1.00%float.
Proof.
  intros Hne. pose proof (raw_after_stable med 0 k 0 (le_n 0)) as H.
  cbn [Nat.add] in H. rewrite H.
  unfold raw_after. cbn [seq fold_left]. apply set_nth_same.
  rewrite repeat_length. destruct med; [congruence|simpl; lia].
Qed.

Lemma index_raw_column_eq (med : list float) :
  index_raw_column med = raw_after med (length med - 1).
Proof.
  unfold index_raw_column, raw_after.
  destruct med as [|m0 t]; reflexivity.
Qed.

Lemma index_raw_column_length (med : list float) :
  length (index_raw_column med) = length med.
Proof. rewrite index_raw_column_eq. apply raw_after_length. Qed.

Lemma index_raw_column_first (med : list float) :
  med <> [] -> nth 0 (index_raw_column med) nan = 1.00%float.
Proof. intros H. rewrite index_raw_column_eq. apply raw_after_first, H. Qed.

Lemma index_raw_column_step (med : list float) (i : nat) :
  (S i < length med)%nat ->
  nth (S i) (index_raw_column med) nan
  = chained (nth i med nan) (nth (S i) med nan) (nth i (index_raw_column med) nan).
Proof.
  intros Hi. rewrite index_raw_column_eq.
  replace (length med - 1)%nat with (S i + (length med - 1 - S i))%nat at 1 by lia.
  rewrite raw_after_stable by lia.
  replace (length med - 1)%nat with (i + (length med - 1 - i))%nat by lia.
  rewrite (raw_after_stable med i) by lia.
  rewrite raw_after_S, chain_step_same.
  - rewrite raw_after_length.
    apply Nat.ltb_lt in Hi. rewrite Hi. reflexivity.
  - rewrite raw_after_length. lia.
  - f_equal. lia.
Qed.

(** ** The columns of the monthly table *)

Lemma monthly_agg_months (d : list (date * float)) :
  map (fun t => fst (fst t)) (monthly_agg d)
  = group_keys (map (fun r => month_start (fst r)) d).
Proof.
  unfold monthly_agg. rewrite map_map. simpl. apply map_id.
Qed.

Lemma assemble_columns (min_sales : Z) (m : list (date * Z * float)) (raw : list float) :
  length raw = length m ->
  let rows := map (fun '((k, c, md), r) => mkbucket k c md (c <? min_sales) r)
                  (combine m raw) in
  map Month rows = map (fun t => fst (fst t)) m
  /\ map MedianPrice rows = map snd m
  /\ map Index_Raw rows = raw.
Proof.
  revert raw. induction m as [|[[k c] md] t IH]; intros [|r raw] Hlen; simpl in *;
    try discriminate; auto.
  injection Hlen as Hlen. destruct (IH raw Hlen) as (Hm & Hp & Hr).
  repeat split; f_equal; assumption.
Qed.

Lemma build_columns (df : list (sale float)) (min_sales : Z) :
  let m := build_monthly_index_price df min_sales in
  let meds := map snd (monthly_agg (dropna df)) in
  map Month m = group_keys (map (fun r => month_start (fst r)) (dropna df))
  /\ map MedianPrice m = meds
  /\ map Index_Raw m = index_raw_column meds.
Proof.
  unfold build_monthly_index_price.
  destruct (assemble_columns min_sales (monthly_agg (dropna df))
              (index_raw_column (map snd (monthly_agg (dropna df)))))
    as (Hm & Hp & Hr).
  - rewrite index_raw_column_length, length_map. reflexivity.
  - cbv zeta. rewrite Hm, Hp, Hr, monthly_agg_months. auto.
Qed.

Lemma nth_error_column {A B : Type} (f : A -> B) (l : list A) (i : nat) (x : A) (d : B) :
  nth_error l i = Some x -> nth i (map f l) d = f x.
Proof.
  intros H. apply nth_error_nth. rewrite nth_error_map, H. reflexivity.
Qed.

(** C1.  Whenever the input holds at least one record with a date and a
    price, the monthly table is strictly ascending by month, its first row
    has [Index_Raw] exactly 1.00, and each later row carries the previous
    index forward when the previous median is NaN or zero or the current
    median is NaN, and otherwise holds the previous index times the ratio of
    the current median to the previous one. *)
Theorem monthly_index_chain (df : list (sale float)) (min_sales : Z) :
  dropna df <> [] ->
  let m := build_monthly_index_price df min_sales in
  StronglySorted date_lt (map Month m)
  /\ (exists b rest, m = b :: rest /\ Index_Raw b = 1.00%float)
  /\ (forall i prev cur,
        nth_error m i = Some prev -> nth_error m (S i) = Some cur ->
        Index_Raw cur
        = if isna (MedianPrice prev) || (MedianPrice prev =? 0)%float
             || isna (MedianPrice cur)
          then Index_Raw prev
          else (Index_Raw prev * (MedianPrice cur / MedianPrice prev))%float).
Proof.
  intros Hne m.
  destruct (build_columns df min_sales) as (Hm & Hp & Hr). fold m in Hm, Hp, Hr.
  assert (Hmne : m <> []).
  { intros E. rewrite E in Hm. simpl in Hm. symmetry in Hm.
    revert Hm. apply group_keys_nonempty.
    destruct (dropna df); [congruence|discriminate]. }
  assert (Hmed : map snd (monthly_agg (dropna df)) <> []).
  { rewrite <- Hp. destruct m; [congruence|discriminate]. }
  split; [|split].
  - rewrite Hm. apply group_keys_sorted.
  - destruct m as [|b rest] eqn:E; [congruence|].
    exists b, rest. split; [reflexivity|].
    pose proof (index_raw_column_first _ Hmed) as H1.
    rewrite <- Hr in H1. exact H1.
  - intros i prev cur Hprev Hcur.
    assert (Hlen : (S i < length (map snd (monthly_agg (dropna df))))%nat).
    { rewrite <- Hp, length_map. apply nth_error_Some. congruence. }
    pose proof (index_raw_column_step _ i Hlen) as Hstep.
    rewrite <- Hr, <- Hp in Hstep.
    rewrite (nth_error_column Index_Raw m (S i) cur nan Hcur) in Hstep.
    rewrite (nth_error_column Index_Raw m i prev nan Hprev) in Hstep.
    rewrite (nth_error_column MedianPrice m (S i) cur nan Hcur) in Hstep.
    rewrite (nth_error_column MedianPrice m i prev nan Hprev) in Hstep.
    exact Hstep.
Qed.

Lemma monthly_index_chain_witness :
  dropna scenario_A_sales <> []
  /\ let m := build_monthly_index_price scenario_A_sales 1 in
     StronglySorted date_lt (map Month m)
     /\ (exists b rest, m = b :: rest /\ Index_Raw b = 1.00%float)
     /\ (forall i prev cur,
           nth_error m i = Some prev -> nth_error m (S i) = Some cur ->
           Index_Raw cur
           = if isna (MedianPrice prev) || (MedianPrice prev =? 0)%float
                || isna (MedianPrice cur)
             then Index_Raw prev
             else (Index_Raw prev * (MedianPrice cur / MedianPrice prev))%float).
Proof.
  assert (H : dropna scenario_A_sales <> []) by (vm_compute; discriminate).
  split; [exact H|].
  exact (monthly_index_chain scenario_A_sales 1 H).
Defined.

(** Scenario A of the specification: two months, one sale each. *)
Example scenario_A :
  map (fun b => (Month b, SalesCount b, MedianPrice b, ThinMonth b, Index_Raw b))
      (build_monthly_index_price scenario_A_sales 1)
  = [(mkdate 2024 1 1, 1, 300000%float, false, 1.00%float);
     (mkdate 2024 2 1, 1, 310000%float, false, (310000 / 300000)%float)].
Proof. vm_compute. reflexivity. Qed.

(** C8.  The minimum sales per month only sets the thin-month flag: for any
    two values of it the monthly tables have the same months, in the same
    order, with the same sale counts, median prices and raw index values. *)
Theorem min_sales_only_flags_thin (df : list (sale float)) (a b : Z) :
  map (fun r => (Month r, SalesCount r, MedianPrice r, Index_Raw r))
      (build_monthly_index_price df a)
  = map (fun r => (Month r, SalesCount r, MedianPrice r, Index_Raw r))
        (build_monthly_index_price df b).
Proof.
  unfold build_monthly_index_price. rewrite !map_map.
  apply map_ext. intros [[[k c] md] r]. reflexivity.
Qed.

(** The thin-month flag of every row is the comparison of its sale count
    with the configured minimum. *)
Lemma thin_month_flag (df : list (sale float)) (min_sales : Z) (r : bucket) :
  In r (build_monthly_index_price df min_sales) ->
  ThinMonth r = (SalesCount r <? min_sales).
Proof.
  unfold build_monthly_index_price. rewrite in_map_iff.
  intros [[[[k c] md] x] [<- _]]. reflexivity.
Qed.

(** ** Index Lookup *)

Lemma date_le_refl (a : date) : date_le a a.
Proof. apply date_leb_spec. now right. Qed.

Lemma date_le_trans (a b c : date) : date_le a b -> date_le b c -> date_le a c.
Proof.
  unfold date_le. rewrite !date_leb_spec. unfold date_lt.
  intros [H1| ->] [H2| ->]; auto.
  left. eapply date_ltb_trans; eassumption.
Qed.

Lemma date_le_total (a b : date) : date_leb a b = false -> date_le b a.
Proof.
  unfold date_leb. rewrite orb_false_iff. intros [H1 H2].
  apply date_leb_spec. left. apply date_ltb_total; assumption.
Qed.

Lemma insert_row_In (r x : index_row) (l : list index_row) :
  In x (insert_row r l) <-> x = r \/ In x l.
Proof.
  induction l as [|h t IH]; simpl.
  - intuition.
  - destruct (date_leb (Month (base r)) (Month (base h))); simpl.
    + intuition.
    + rewrite IH. intuition.
Qed.

Lemma sort_by_month_In (x : index_row) (l : list index_row) :
  In x (sort_by_month l) <-> In x l.
Proof.
  induction l as [|h t IH]; simpl.
  - reflexivity.
  - rewrite insert_row_In, IH. intuition.
Qed.

Lemma insert_row_sorted (r : index_row) (l : list index_row) :
  StronglySorted month_le l -> StronglySorted month_le (insert_row r l).
Proof.
  induction 1 as [|h t Hs IH Hall]; simpl.
  - repeat constructor.
  - destruct (date_leb (Month (base r)) (Month (base h))) eqn:Hle.
    + constructor; [constructor; assumption|].
      constructor; [exact Hle|].
      rewrite Forall_forall in *. intros x Hx.
      eapply date_le_trans; [exact Hle|]. apply Hall, Hx.
    + constructor; [exact IH|].
      rewrite Forall_forall in *. intros x Hx.
      apply insert_row_In in Hx. destruct Hx as [->|Hx].
      * apply date_le_total, Hle.
      * apply Hall, Hx.
Qed.

Lemma sort_by_month_sorted (l : list index_row) :
  StronglySorted month_le (sort_by_month l).
Proof.
  induction l as [|h t IH]; simpl.
  - constructor.
  - apply insert_row_sorted, IH.
Qed.

Lemma sorted_last_max (l : list index_row) (r : index_row) (front : list index_row) :
  StronglySorted month_le l -> rev l = r :: front ->
  forall x, In x l -> month_le x r.
Proof.
  intros Hs Hrev x Hx.
  assert (E : l = rev front ++ [r]).
  { rewrite <- (rev_involutive l), Hrev. reflexivity. }
  subst l. clear Hrev.
  induction (rev front) as [|h t IH]; simpl in *.
  - destruct Hx as [<-|[]]. apply date_le_refl.
  - inversion Hs as [|? ? Hs' Hall]; subst.
    destruct Hx as [<-|Hx].
    + rewrite Forall_forall in Hall. apply Hall, in_or_app. right. now left.
    + apply IH; assumption.
Qed.

(** C2.  For a target date [t] with first-of-month [m]: an empty table gives
    NaN with mode [no_index]; when a row of month [m] exists the result is
    the value of such a row with mode [exact]; when none does but some row
    has a month at or before [m], the result is the value of a row whose
    month is at or before [m] and at or after every other such month, with
    mode [prior]; and a non-empty table with no month at or before [m]
    gives NaN with mode [no_prior]. *)
Theorem lookup_index_resolution (index_df : list index_row) (t : date) (c : index_col) :
  let m := month_start t in
  let res := lookup_index index_df (Some t) c in
  (index_df = [] -> res = (nan, None, "no_index"%string))
  /\ ((exists r, In r index_df /\ Month (base r) = m) ->
      exists r, In r index_df /\ Month (base r) = m
                /\ res = (column c r, Some m, "exact"%string))
  /\ ((forall r, In r index_df -> Month (base r) <> m) ->
      (exists r, In r index_df /\ date_le (Month (base r)) m) ->
      exists r, In r index_df /\ date_le (Month (base r)) m
                /\ (forall r', In r' index_df -> date_le (Month (base r')) m ->
                               date_le (Month (base r')) (Month (base r)))
                /\ res = (column c r, Some (Month (base r)), "prior"%string))
  /\ (index_df <> [] ->
      (forall r, In r index_df -> ~ date_le (Month (base r)) m) ->
      res = (nan, None, "no_prior"%string)).
Proof.
  intros m res. subst res. unfold lookup_index. fold m.
  repeat split.
  - intros ->. reflexivity.
  - intros (r & Hin & Hm).
    destruct index_df as [|r0 rest] eqn:E; [destruct Hin|]. rewrite <- E in *.
    destruct (filter (fun r => date_eqb (Month (base r)) m) index_df) as [|x xs] eqn:F.
    + assert (Hf : In r (filter (fun r => date_eqb (Month (base r)) m) index_df)).
      { apply filter_In. split; [exact Hin|]. apply date_eqb_eq, Hm. }
      rewrite F in Hf. destruct Hf.
    + assert (Hx : In x (filter (fun r => date_eqb (Month (base r)) m) index_df)).
      { rewrite F. now left. }
      apply filter_In in Hx. destruct Hx as [Hx1 Hx2].
      exists x. repeat split; [exact Hx1|apply date_eqb_eq, Hx2].
  - intros Hnone (r & Hin & Hle).
    destruct index_df as [|r0 rest] eqn:E; [destruct Hin|]. rewrite <- E in *.
    destruct (filter (fun r => date_eqb (Month (base r)) m) index_df) as [|x xs] eqn:F.
    + set (prior := filter (fun r => date_leb (Month (base r)) m) index_df).
      destruct (rev (sort_by_month prior)) as [|p front] eqn:R.
      * assert (Hp : In r (sort_by_month prior)).
        { apply sort_by_month_In, filter_In. split; assumption. }
        rewrite <- (rev_involutive (sort_by_month prior)), R in Hp. destruct Hp.
      * assert (Hp : In p (sort_by_month prior)).
        { rewrite <- (rev_involutive (sort_by_month prior)), R. simpl.
          apply in_or_app. right. now left. }
        apply sort_by_month_In, filter_In in Hp. destruct Hp as [Hp1 Hp2].
        exists p. repeat split; [exact Hp1|exact Hp2|].
        intros r' Hr' Hle'.
        apply (sorted_last_max (sort_by_month prior) p front
                 (sort_by_month_sorted prior) R).
        apply sort_by_month_In, filter_In. split; assumption.
    + assert (Hx : In x (filter (fun r => date_eqb (Month (base r)) m) index_df)).
      { rewrite F. now left. }
      apply filter_In in Hx. destruct Hx as [Hx1 Hx2].
      apply date_eqb_eq in Hx2. destruct (Hnone x Hx1 Hx2).
  - intros Hne Hnone.
    destruct index_df as [|r0 rest] eqn:E; [congruence|]. rewrite <- E in *.
    destruct (filter (fun r => date_eqb (Month (base r)) m) index_df) as [|x xs] eqn:F.
    + set (prior := filter (fun r => date_leb (Month (base r)) m) index_df).
      destruct (rev (sort_by_month prior)) as [|p front] eqn:R; [reflexivity|].
      assert (Hp : In p (sort_by_month prior)).
      { rewrite <- (rev_involutive (sort_by_month prior)), R. simpl.
        apply in_or_app. right. now left. }
      apply sort_by_month_In, filter_In in Hp. destruct Hp as [Hp1 Hp2].
      destruct (Hnone p Hp1 Hp2).
    + assert (Hx : In x (filter (fun r => date_eqb (Month (base r)) m) index_df)).
      { rewrite F. now left. }
      apply filter_In in Hx. destruct Hx as [Hx1 Hx2].
      apply date_eqb_eq in Hx2. destruct (Hnone x Hx1).
      rewrite Hx2. apply date_le_refl.
Qed.

(** The four resolution modes on the two-month table of scenario B. *)
Example lookup_modes :
  lookup_index scenario_B_index (Some (mkdate 2024 1 15)) Col_Raw
  = (1.02%float, Some (mkdate 2024 1 1), "exact"%string)
  /\ lookup_index scenario_B_index (Some (mkdate 2024 3 10)) Col_Smoothed
     = (1.02%float, Some (mkdate 2024 1 1), "prior"%string)
  /\ lookup_index scenario_B_index (Some (mkdate 2024 7 4)) Col_Regression
     = (1.05%float, Some (mkdate 2024 5 1), "prior"%string)
  /\ lookup_index scenario_B_index (Some (mkdate 2023 12 31)) Col_Raw
     = (nan, None, "no_prior"%string)
  /\ lookup_index [] (Some (mkdate 2024 1 15)) Col_Raw
     = (nan, None, "no_index"%string).
Proof. repeat split; reflexivity. Qed.

Lemma unique_month (l : list index_row) (a b : index_row) :
  NoDup (map (fun r => Month (base r)) l) ->
  In a l -> In b l -> Month (base a) = Month (base b) -> a = b.
Proof.
  induction l as [|h t IH]; simpl; [intros _ []|].
  intros Hnd Ha Hb E. inversion Hnd as [|? ? Hnotin Hnd']; subst.
  destruct Ha as [<-|Ha], Hb as [<-|Hb].
  - reflexivity.
  - exfalso. apply Hnotin. rewrite E.
    apply (in_map (fun r => Month (base r))), Hb.
  - exfalso. apply Hnotin. rewrite <- E.
    apply (in_map (fun r => Month (base r))), Ha.
  - apply IH; assumption.
Qed.

(** In a table whose months are pairwise distinct, a date inside the month
    of a row resolves to that row, whichever column is read. *)
Theorem lookup_index_exact_row (index_df : list index_row) (t : date)
  (c : index_col) (r : index_row) :
  NoDup (map (fun r => Month (base r)) index_df) ->
  In r index_df -> Month (base r) = month_start t ->
  lookup_index index_df (Some t) c = (column c r, Some (month_start t), "exact"%string).
Proof.
  intros Hnd Hin Hm. unfold lookup_index.
  destruct index_df as [|r0 rest] eqn:E; [destruct Hin|]. rewrite <- E in *.
  destruct (filter (fun r => date_eqb (Month (base r)) (month_start t)) index_df)
    as [|x xs] eqn:F.
  - assert (Hf : In r (filter (fun r => date_eqb (Month (base r)) (month_start t))
                          index_df)).
    { apply filter_In. split; [exact Hin|]. apply date_eqb_eq, Hm. }
    rewrite F in Hf. destruct Hf.
  - assert (Hx : In x (filter (fun r => date_eqb (Month (base r)) (month_start t))
                          index_df)).
    { rewrite F. now left. }
    apply filter_In in Hx. destruct Hx as [Hx1 Hx2]. apply date_eqb_eq in Hx2.
    assert (x = r) as -> by (apply (unique_month index_df); congruence).
    reflexivity.
Qed.

Lemma lookup_index_exact_row_witness :
  (NoDup (map (fun r => Month (base r)) january_index)
   /\ In (mkrow (mkbucket (mkdate 2024 1 1) 3 300000%float false 1.00%float)
                1.00%float 0%float 1.00%float) january_index
   /\ mkdate 2024 1 1 = month_start (mkdate 2024 1 20))
  /\ lookup_index january_index (Some (mkdate 2024 1 20)) Col_Regression
     = (1.00%float, Some (month_start (mkdate 2024 1 20)), "exact"%string).
Proof.
  assert (H1 : NoDup (map (fun r => Month (base r)) january_index)).
  { simpl. constructor; [intros []|constructor]. }
  assert (H2 : In (mkrow (mkbucket (mkdate 2024 1 1) 3 300000%float false 1.00%float)
                         1.00%float 0%float 1.00%float) january_index)
    by (left; reflexivity).
  assert (H3 : mkdate 2024 1 1 = month_start (mkdate 2024 1 20)) by reflexivity.
  split; [repeat split; assumption|].
  exact (lookup_index_exact_row january_index (mkdate 2024 1 20) Col_Regression
           _ H1 H2 H3).
Defined.

(** ** Adjustment Calculator *)

Example toordinal_examples :
  toordinal (mkdate 1 1 1) = 1
  /\ toordinal (mkdate 2000 12 31) = 730485
  /\ toordinal (mkdate 2024 1 1) = 738886
  /\ toordinal (mkdate 2024 3 1) = 738946
  /\ toordinal (mkdate 2100 3 1) = 766704.
Proof. repeat split; reflexivity. Qed.

(** C3.  In every adjustment row the day count is the absolute difference
    of the two dates in whole days, the adjustment is applied exactly when
    that count reaches the no-adjustment threshold, and a row it is not
    applied to has both adjustments exactly zero. *)
Theorem adjustment_gate (index_df : list index_row) (math_col : index_col)
  (eff_date : date) (no_adj_days : Z) (c : comparable) :
  let a := adjust_comparable index_df math_col eff_date no_adj_days c in
  DaysFromEffective a = Z.abs (toordinal (comp_ContractDate c) - toordinal eff_date)
  /\ (AppliedAdj a = true <-> no_adj_days <= DaysFromEffective a)
  /\ (AppliedAdj a = false -> MktAdjPct a = 0%float /\ MktAdjDollar a = 0%float).
Proof.
  cbv zeta. unfold adjust_comparable. cbn [DaysFromEffective AppliedAdj MktAdjPct MktAdjDollar].
  repeat split.
  - apply Z.leb_le.
  - apply Z.leb_le.
  - rewrite H. reflexivity.
  - rewrite H. reflexivity.
Qed.

(** With an effective date before every month of the index and a 90-day
    threshold, the effective index is unavailable, and the comparable, 16
    days away, gets a percent adjustment of zero rather than NaN. *)
Lemma na_rule_counterexample :
  ~ na_rule_as_stated january_index Col_Smoothed (mkdate 2023 12 20) 90 january_comp.
Proof. vm_compute. discriminate. Qed.

Lemma computed_pct_na (i_eff i_contract : float) :
  isna i_eff || isna i_contract || (i_contract =? 0)%float = true ->
  isna (computed_pct i_eff i_contract) = true.
Proof.
  intros H. unfold computed_pct, pct_change. rewrite H. reflexivity.
Qed.

Lemma computed_pct_value (i_eff i_contract : float) :
  isna i_eff || isna i_contract || (i_contract =? 0)%float = false ->
  computed_pct i_eff i_contract = ((i_eff / i_contract - 1.0) * 100.0)%float.
Proof.
  intros H. unfold computed_pct, pct_change. rewrite H. reflexivity.
Qed.

(** C4, amended.  For a comparable the adjustment is applied to: when the
    effective index or the contract index is NaN, or the contract index is
    zero, the percent adjustment is NaN (so not zero, and labelled N/A);
    otherwise it is [(effective / contract - 1) * 100] and the dollar
    adjustment is the sold price times the percent adjustment over 100. *)
Theorem adjustment_values_when_applied (index_df : list index_row)
  (math_col : index_col) (eff_date : date) (no_adj_days : Z) (c : comparable) :
  let a := adjust_comparable index_df math_col eff_date no_adj_days c in
  AppliedAdj a = true ->
  if isna (Index_Effective a) || isna (Index_Contract a)
     || (Index_Contract a =? 0)%float
  then isna (MktAdjPct a) = true /\ MktAdjPct a <> 0%float
       /\ Category a = "N/A"%string
  else MktAdjPct a = ((Index_Effective a / Index_Contract a - 1.0) * 100.0)%float
       /\ MktAdjDollar a = (comp_SoldPrice c * (MktAdjPct a / 100.0))%float.
Proof.
  cbv zeta. unfold adjust_comparable.
  cbn [AppliedAdj Index_Effective Index_Contract MktAdjPct MktAdjDollar Category].
  intros Happ. rewrite Happ. cbn [negb].
  set (e := fst (fst (lookup_index index_df (Some eff_date) math_col))).
  set (k := fst (fst (lookup_index index_df (Some (comp_ContractDate c)) math_col))).
  destruct (isna e || isna k || (k =? 0)%float) eqn:Hna.
  - pose proof (computed_pct_na e k Hna) as Hn.
    repeat split.
    + exact Hn.
    + intros E. rewrite E in Hn. discriminate.
    + unfold categorize_adjustment. rewrite Hn. reflexivity.
  - rewrite (computed_pct_value e k Hna). split; reflexivity.
Qed.

Example scenario_B :
  let a := adjust_comparable scenario_B_index Col_Smoothed (mkdate 2024 5 9) 90
                             scenario_B_comp in
  DaysFromEffective a = 120 /\ AppliedAdj a = true
  /\ MktAdjPct a = 2.941176470588247%float
  /\ MktAdjDollar a = 11764.705882352988%float
  /\ Category a = "Increasing"%string /\ Direction a = "UPWARD"%string.
Proof. vm_compute. repeat split; reflexivity. Qed.

(** Scenario C: the same indices 30 days apart. *)
Example scenario_C :
  let a := adjust_comparable scenario_B_index Col_Smoothed (mkdate 2024 5 9) 90
                             (mkcomp "7 Oak Ave" (mkdate 2024 4 9) 400000%float) in
  DaysFromEffective a = 30 /\ AppliedAdj a = false
  /\ Index_Contract a = 1.02%float /\ Index_Effective a = 1.05%float
  /\ MktAdjPct a = 0%float /\ MktAdjDollar a = 0%float.
Proof. vm_compute. repeat split; reflexivity. Qed.

Lemma adjustment_values_when_applied_witness :
  let a := adjust_comparable scenario_B_index Col_Smoothed (mkdate 2024 5 9) 90
                             scenario_B_comp in
  AppliedAdj a = true
  /\ (if isna (Index_Effective a) || isna (Index_Contract a)
         || (Index_Contract a =? 0)%float
      then isna (MktAdjPct a) = true /\ MktAdjPct a <> 0%float
           /\ Category a = "N/A"%string
      else MktAdjPct a = ((Index_Effective a / Index_Contract a - 1.0) * 100.0)%float
           /\ MktAdjDollar a
              = (comp_SoldPrice scenario_B_comp * (MktAdjPct a / 100.0))%float).
Proof.
  assert (H : AppliedAdj (adjust_comparable scenario_B_index Col_Smoothed
                            (mkdate 2024 5 9) 90 scenario_B_comp) = true)
    by reflexivity.
  split; [exact H|].
  exact (adjustment_values_when_applied scenario_B_index Col_Smoothed
           (mkdate 2024 5 9) 90 scenario_B_comp H).
Defined.

(** C10.  For a comparable inside the no-adjustment window whose effective
    or contract index is NaN, or whose contract index is zero, the percent
    adjustment first computed is NaN, yet the row reports both adjustments
    as exactly zero, with the labels Stable and NO ADJUSTMENT. *)
Theorem zeroing_precedes_na (index_df : list index_row) (math_col : index_col)
  (eff_date : date) (no_adj_days : Z) (c : comparable) :
  let a := adjust_comparable index_df math_col eff_date no_adj_days c in
  AppliedAdj a = false ->
  isna (Index_Effective a) || isna (Index_Contract a)
  || (Index_Contract a =? 0)%float = true ->
  isna (computed_pct (Index_Effective a) (Index_Contract a)) = true
  /\ MktAdjPct a = 0%float /\ isna (MktAdjPct a) = false
  /\ MktAdjDollar a = 0%float
  /\ Category a = "Stable"%string
  /\ Direction a = "NO ADJUSTMENT"%string.
Proof.
  cbv zeta. unfold adjust_comparable.
  cbn [AppliedAdj Index_Effective Index_Contract MktAdjPct MktAdjDollar
       Category Direction].
  intros Happ Hna. rewrite Happ. cbn [negb].
  split; [apply computed_pct_na, Hna|].
  repeat split.
Qed.

Lemma zeroing_precedes_na_witness :
  let a := adjust_comparable january_index Col_Smoothed (mkdate 2023 12 20) 90
                             january_comp in
  (AppliedAdj a = false
   /\ isna (Index_Effective a) || isna (Index_Contract a)
      || (Index_Contract a =? 0)%float = true)
  /\ isna (computed_pct (Index_Effective a) (Index_Contract a)) = true
  /\ MktAdjPct a = 0%float /\ isna (MktAdjPct a) = false
  /\ MktAdjDollar a = 0%float
  /\ Category a = "Stable"%string
  /\ Direction a = "NO ADJUSTMENT"%string.
Proof.
  assert (H1 : AppliedAdj (adjust_comparable january_index Col_Smoothed
                             (mkdate 2023 12 20) 90 january_comp) = false)
    by reflexivity.
  assert (H2 : let a := adjust_comparable january_index Col_Smoothed
                          (mkdate 2023 12 20) 90 january_comp in
               isna (Index_Effective a) || isna (Index_Contract a)
               || (Index_Contract a =? 0)%float = true)
    by reflexivity.
  split; [split; [exact H1|exact H2]|].
  exact (zeroing_precedes_na january_index Col_Smoothed (mkdate 2023 12 20) 90
           january_comp H1 H2).
Defined.

(** ** Index Post-Processor *)

Lemma assemble_rows (bs : list bucket) (s sd r : list float) :
  length s = length bs -> length sd = length bs -> length r = length bs ->
  let rows := map (fun '(b, s, sd, r) => mkrow b s sd r)
                  (combine (combine (combine bs s) sd) r) in
  map base rows = bs
  /\ map Index_Smoothed rows = s
  /\ map Index_Std rows = sd
  /\ map Index_Regression rows = r.
Proof.
  revert s sd r.
  induction bs as [|b bs IH]; intros [|x s] [|y sd] [|z r] H1 H2 H3;
    simpl in *; try discriminate; auto.
  injection H1 as H1. injection H2 as H2. injection H3 as H3.
  destruct (IH s sd r H1 H2 H3) as (Ha & Hb & Hc & Hd).
  repeat split; f_equal; assumption.
Qed.

Lemma nth_error_map_seq {A : Type} (f : nat -> A) (n i : nat) :
  (i < n)%nat -> nth_error (map f (seq 0 n)) i = Some (f i).
Proof.
  intros H. rewrite nth_error_map, nth_error_seq.
  apply Nat.ltb_lt in H. rewrite H. reflexivity.
Qed.

Lemma isna_fillna0 (x : float) : isna (fillna0 x) = false.
Proof.
  unfold fillna0. destruct (isna x) eqn:E; [reflexivity|exact E].
Qed.

Section PostProcessorFacts.

Variable polyfit : list float -> list float -> float * float.
Variable index_df : list bucket.
Variable smooth_window : Z.

Let out := add_smoothed_and_regression polyfit index_df smooth_window.
Let w := Z.to_nat (Z.max 2 smooth_window).
Let raw := map Index_Raw index_df.
Let n := length index_df.

Lemma post_processor_columns :
  map base out = index_df
  /\ map Index_Smoothed out = map (rolling_mean raw w) (seq 0 n)
  /\ map Index_Std out = map (fun i => fillna0 (rolling_std raw w i)) (seq 0 n)
  /\ map Index_Regression out
     = if (2 <=? n)%nat && (2 <=? length (filter isfinite raw))%nat
       then
         let x := map (fun i => float_of_Z (Z.of_nat i)) (seq 0 n) in
         let coef := polyfit (select (map isfinite raw) x)
                             (select (map isfinite raw) raw) in
         map (fun xi => (fst coef * xi + snd coef)%float) x
       else map (rolling_mean raw w) (seq 0 n).
Proof.
  subst out. unfold add_smoothed_and_regression. fold w raw n.
  apply assemble_rows.
  - rewrite length_map, length_seq. reflexivity.
  - rewrite length_map, length_seq. reflexivity.
  - destruct ((2 <=? n)%nat && (2 <=? length (filter isfinite raw))%nat);
      rewrite !length_map, length_seq; reflexivity.
Qed.

End PostProcessorFacts.

(** A one-row table: the only window holds one observation, so the
    deviation is 0 and the regression column is the smoothed one, whatever
    [np.polyfit] would return. *)
Example single_month_post_processing
  (polyfit : list float -> list float -> float * float) :
  add_smoothed_and_regression polyfit
    [mkbucket (mkdate 2024 1 1) 3 300000%float false 1.00%float] 6
  = january_index.
Proof. reflexivity. Qed.

(** Two rows and a requested window of 1: the window used is 2, the first
    row has a single observation and the second the sample deviation of
    both values. *)
Example two_month_deviation
  (polyfit : list float -> list float -> float * float) :
  map Index_Std
      (add_smoothed_and_regression polyfit
         [mkbucket (mkdate 2024 1 1) 3 300000%float false 1.00%float;
          mkbucket (mkdate 2024 2 1) 4 330000%float false 1.5%float] 1)
  = [0%float; PrimFloat.sqrt 0.125%float]
  /\ map Index_Smoothed
       (add_smoothed_and_regression polyfit
          [mkbucket (mkdate 2024 1 1) 3 300000%float false 1.00%float;
           mkbucket (mkdate 2024 2 1) 4 330000%float false 1.5%float] 1)
     = [1.00%float; 1.25%float].
Proof.
  split.
  - unfold add_smoothed_and_regression. rewrite !map_map. cbn [map].
    vm_compute. reflexivity.
  - unfold add_smoothed_and_regression. rewrite !map_map. cbn [map].
    vm_compute. reflexivity.
Qed.

(** C9.  The window used is the requested one raised to at least 2, so a
    request below 2 gives the table of window 2; the [Index_Std] of a row is
    never NaN, is 0 when its centred window holds fewer than two
    observations, and is otherwise the sample standard deviation of the
    window with NaN replaced by 0; and when fewer than two values of
    [Index_Raw] are finite the [Index_Regression] column is the
    [Index_Smoothed] column. *)
Theorem post_processor_degenerate_cases
  (polyfit : list float -> list float -> float * float)
  (index_df : list bucket) (smooth_window : Z) :
  let out := add_smoothed_and_regression polyfit index_df smooth_window in
  let w := Z.to_nat (Z.max 2 smooth_window) in
  let raw := map Index_Raw index_df in
  (2 <= w)%nat
  /\ (smooth_window < 2 -> out = add_smoothed_and_regression polyfit index_df 2)
  /\ map base out = index_df
  /\ (forall i r, nth_error out i = Some r ->
        isna (Index_Std r) = false
        /\ ((length (window_obs raw w i) < 2)%nat -> Index_Std r = 0%float)
        /\ Index_Std r = fillna0 (rolling_std raw w i))
  /\ ((length (filter isfinite raw) < 2)%nat ->
      map Index_Regression out = map Index_Smoothed out).
Proof.
  intros out w raw.
  destruct (post_processor_columns polyfit index_df smooth_window)
    as (Hb & Hs & Hd & Hr).
  fold out w raw in Hb, Hs, Hd, Hr.
  split; [subst w; lia|].
  split.
  { intros Hlt. subst out. unfold add_smoothed_and_regression.
    replace (Z.max 2 smooth_window) with (Z.max 2 2) by lia. reflexivity. }
  split; [exact Hb|].
  split.
  - intros i r Hi.
    assert (Hlen : (i < length index_df)%nat).
    { rewrite <- Hb, length_map. apply nth_error_Some. congruence. }
    assert (E : Index_Std r = fillna0 (rolling_std raw w i)).
    { pose proof (nth_error_map_seq
                    (fun i => fillna0 (rolling_std raw w i)) _ i Hlen) as Hn.
      rewrite <- Hd, nth_error_map, Hi in Hn. simpl in Hn. congruence. }
    split; [rewrite E; apply isna_fillna0|].
    split; [|exact E].
    intros Hfew. rewrite E. unfold rolling_std.
    apply Nat.leb_gt in Hfew. rewrite Hfew. reflexivity.
  - intros Hfew. rewrite Hr, Hs.
    apply Nat.leb_gt in Hfew. rewrite Hfew, andb_false_r. reflexivity.
Qed.

(** ** Distribution rule (IQR) *)

(** *** Binary64 rounding and powers of two *)

Lemma fexp_linear (x : Z) : -1021 <= x -> fexp prec emax x = x - 53.
Proof. unfold fexp, emin, prec, emax. lia. Qed.

Lemma fexp_low (x : Z) : x <= -1021 -> fexp prec emax x = -1074.
Proof. unfold fexp, emin, prec, emax. lia. Qed.

Lemma digits2_pos_succ (p : positive) :
  (digits2_pos p <= digits2_pos (Pos.succ p) <= digits2_pos p + 1)%positive.
Proof.
  induction p as [p IH|p IH|]; cbn [Pos.succ digits2_pos]; lia.
Qed.

Lemma Zdigits2_nonneg (m : Z) : 0 <= Zdigits2 m.
Proof. destruct m; simpl; lia. Qed.

(** One halving step removes one digit. *)
Lemma shr_1_digits (mrs : shr_record) :
  Zdigits2 (shr_m (shr_1 mrs)) = Z.max 0 (Zdigits2 (shr_m mrs) - 1).
Proof.
  destruct mrs as [m r s].
  destruct m as [|[p|p|]|[p|p|]]; cbn [shr_1 shr_m Zdigits2 digits2_pos]; lia.
Qed.

Lemma shr_1_nonneg (mrs : shr_record) : 0 <= shr_m mrs -> 0 <= shr_m (shr_1 mrs).
Proof.
  destruct mrs as [m r s].
  destruct m as [|[p|p|]|[p|p|]]; cbn [shr_1 shr_m]; lia.
Qed.

Lemma iter_shr_1_digits (n : positive) (mrs : shr_record) :
  Zdigits2 (shr_m (iter_pos shr_1 n mrs)) = Z.max 0 (Zdigits2 (shr_m mrs) - Z.pos n).
Proof.
  revert mrs. induction n as [n IH|n IH|]; intros mrs; cbn [iter_pos].
  - rewrite !IH, shr_1_digits. lia.
  - rewrite !IH. lia.
  - apply shr_1_digits.
Qed.

Lemma iter_shr_1_nonneg (n : positive) (mrs : shr_record) :
  0 <= shr_m mrs -> 0 <= shr_m (iter_pos shr_1 n mrs).
Proof.
  revert mrs. induction n as [n IH|n IH|]; intros mrs H; cbn [iter_pos].
  - apply IH, IH, shr_1_nonneg, H.
  - apply IH, IH, H.
  - apply shr_1_nonneg, H.
Qed.

(** Rounding to nearest keeps the number of digits or adds one. *)
Lemma round_nearest_even_digits (m : Z) (l : location) :
  0 <= m ->
  Zdigits2 m <= Zdigits2 (round_nearest_even m l) <= Zdigits2 m + 1
  /\ m <= round_nearest_even m l.
Proof.
  intros Hm.
  assert (H1 : Zdigits2 m <= Zdigits2 (m + 1) <= Zdigits2 m + 1).
  { destruct m as [|p|p]; [cbn; lia| |lia].
    replace (Z.pos p + 1) with (Z.pos (Pos.succ p)) by lia.
    pose proof (digits2_pos_succ p). cbn [Zdigits2]. lia. }
  unfold round_nearest_even. destruct l as [|[| |]]; try destruct (Z.even m); lia.
Qed.

Lemma shr_m_record_of_loc (m : Z) (l : location) : shr_m (shr_record_of_loc m l) = m.
Proof. destruct l as [|[| |]]; reflexivity. Qed.

Lemma loc_of_record_of_loc (m : Z) (l : location) :
  loc_of_shr_record (shr_record_of_loc m l) = l.
Proof. destruct l as [|[| |]]; reflexivity. Qed.

(** The first shift of the rounding step. *)
Lemma shr_fexp_exponent (m e : Z) (l : location) :
  let n := fexp prec emax (Zdigits2 m + e) - e in
  snd (shr_fexp prec emax m e l) = e + Z.max 0 n
  /\ Zdigits2 (shr_m (fst (shr_fexp prec emax m e l))) = Z.max 0 (Zdigits2 m - Z.max 0 n)
  /\ (0 <= m -> 0 <= shr_m (fst (shr_fexp prec emax m e l)))
  /\ (n <= 0 -> fst (shr_fexp prec emax m e l) = shr_record_of_loc m l).
Proof.
  intros n. unfold shr_fexp. fold n. unfold shr.
  pose proof (Zdigits2_nonneg m) as Hd.
  destruct n as [|p|p]; cbn [fst snd].
  - rewrite shr_m_record_of_loc. repeat split; auto; lia.
  - rewrite iter_shr_1_digits, shr_m_record_of_loc. repeat split; try lia.
    intros Hm. apply iter_shr_1_nonneg. rewrite shr_m_record_of_loc. exact Hm.
  - rewrite shr_m_record_of_loc. repeat split; auto; lia.
Qed.

(** The rounding step in terms of its two shifts. *)
Lemma binary_round_aux_steps (s : bool) (m e : Z) (l : location) :
  let r1 := shr_fexp prec emax m e l in
  let m1 := round_nearest_even (shr_m (fst r1)) (loc_of_shr_record (fst r1)) in
  let r2 := shr_fexp prec emax m1 (snd r1) loc_Exact in
  binary_round_aux prec emax s m e l
  = match shr_m (fst r2) with
    | 0 => S754_zero s
    | Z.pos p => if snd r2 <=? 971 then S754_finite s p (snd r2) else S754_infinity s
    | Z.neg _ => S754_nan
    end.
Proof.
  intros r1 m1 r2. unfold binary_round_aux. subst r2 m1 r1.
  destruct (shr_fexp prec emax m e l) as [mrs' e']. cbn [fst snd].
  destruct (shr_fexp prec emax _ e' loc_Exact) as [mrs'' e'']. reflexivity.
Qed.

Lemma shr_fexp_shift (m e : Z) (l : location) (j : Z) :
  -1021 <= Zdigits2 m + e -> -1021 <= Zdigits2 m + e + j ->
  shr_fexp prec emax m (e + j) l
  = (fst (shr_fexp prec emax m e l), snd (shr_fexp prec emax m e l) + j).
Proof.
  intros Hlin Hlin'. unfold shr_fexp.
  rewrite !fexp_linear by lia.
  replace (Zdigits2 m + (e + j) - 53 - (e + j)) with (Zdigits2 m - 53) by lia.
  replace (Zdigits2 m + e - 53 - e) with (Zdigits2 m - 53) by lia.
  unfold shr. destruct (Zdigits2 m - 53); cbn [fst snd]; f_equal; lia.
Qed.

(** Above the subnormal range, rounding commutes with a shift of the
    exponent. *)
Lemma binary_round_aux_shift (s : bool) (m e : Z) (l : location) (j : Z) :
  shift_invariant m e l j ->
  binary_round_aux prec emax s m (e + j) l
  = sf_shift j (binary_round_aux prec emax s m e l).
Proof.
  intros ([H1 H1'] & [H2 H2'] & H3).
  rewrite !binary_round_aux_steps.
  rewrite (shr_fexp_shift m e l j H1 H1'). cbn [fst snd].
  rewrite (shr_fexp_shift _ _ loc_Exact j H2 H2'). cbn [fst snd].
  destruct (shr_m (fst (shr_fexp prec emax _ _ loc_Exact))) as [|p|p];
    try reflexivity.
  apply Z.leb_le in H3. rewrite H3. reflexivity.
Qed.

(** A valid result above the lowest normal binade was rounded above the
    subnormal range. *)
Lemma binary_round_aux_linear (s : bool) (p : positive) (e : Z) (l : location)
  (s' : bool) (mR : positive) (eR : Z) (j : Z) :
  binary_round_aux prec emax s (Z.pos p) e l = S754_finite s' mR eR ->
  valid_binary (S754_finite s' mR eR) = true ->
  -1073 <= eR -> -1073 <= eR + j ->
  shift_invariant (Z.pos p) e l j.
Proof.
  intros HR Hv He He'. unfold shift_invariant.
  set (r1 := shr_fexp prec emax (Z.pos p) e l).
  set (m1 := round_nearest_even (shr_m (fst r1)) (loc_of_shr_record (fst r1))).
  rewrite binary_round_aux_steps in HR. fold r1 in HR. fold m1 in HR.
  set (r2 := shr_fexp prec emax m1 (snd r1) loc_Exact) in *.
  destruct (shr_fexp_exponent (Z.pos p) e l) as (A1 & A2 & A3 & _).
  fold r1 in A1, A2, A3. specialize (A3 ltac:(lia)).
  destruct (round_nearest_even_digits (shr_m (fst r1)) (loc_of_shr_record (fst r1)) A3)
    as [B1 B2]. fold m1 in B1, B2.
  destruct (shr_fexp_exponent m1 (snd r1) loc_Exact) as (C1 & C2 & _ & _).
  fold r2 in C1, C2.
  assert (Hm : shr_m (fst r2) = Z.pos mR /\ snd r2 = eR).
  { destruct (shr_m (fst r2)) as [|q|q]; try discriminate.
    destruct (snd r2 <=? 971); [|discriminate]. injection HR as _ -> ->. auto. }
  destruct Hm as [Hm1 Hm2]. rewrite Hm1 in C2. rewrite Hm2 in C1.
  unfold valid_binary, SpecFloat.valid_binary, bounded, canonical_mantissa in Hv.
  apply andb_prop in Hv. destruct Hv as [Hc Hb]. apply Z.eqb_eq in Hc.
  apply Z.leb_le in Hb.
  change (Zdigits2 (Z.pos mR)) with (Z.pos (digits2_pos mR)) in C2.
  change (Zdigits2 (Z.pos p)) with (Z.pos (digits2_pos p)) in *.
  unfold fexp, emin, prec, emax in *.
  lia.
Qed.

Lemma sf_shift_finite (j : Z) (s : bool) (m : positive) (e : Z) :
  sf_scalable j (S754_finite s m e) = true ->
  sf_shift j (S754_finite s m e) = S754_finite s m (e + j).
Proof.
  cbn [sf_scalable sf_shift]. intros H. apply andb_prop in H. destruct H as [_ H].
  rewrite H. reflexivity.
Qed.

Lemma sf_scalable_range (j : Z) (s : bool) (m : positive) (e : Z) :
  sf_scalable j (S754_finite s m e) = true ->
  -1073 <= e /\ -1073 <= e + j /\ e + j <= 971.
Proof.
  cbn [sf_scalable]. intros H. apply andb_prop in H. destruct H as [H H3].
  apply andb_prop in H. destruct H as [H1 H2].
  apply Z.leb_le in H1, H2, H3. auto.
Qed.

Lemma valid_exponent (s : bool) (m : positive) (e : Z) :
  valid_binary (S754_finite s m e) = true -> -1074 <= e <= 971.
Proof.
  unfold valid_binary, SpecFloat.valid_binary, bounded, canonical_mantissa.
  intros H. apply andb_prop in H. destruct H as [H1 H2].
  apply Z.eqb_eq in H1. apply Z.leb_le in H2.
  unfold fexp, emin, prec, emax in *. lia.
Qed.

Lemma valid_normal_digits (s : bool) (m : positive) (e : Z) :
  valid_binary (S754_finite s m e) = true -> -1073 <= e -> digits2_pos m = 53%positive.
Proof.
  unfold valid_binary, SpecFloat.valid_binary, bounded, canonical_mantissa.
  intros H He. apply andb_prop in H. destruct H as [H1 _].
  apply Z.eqb_eq in H1. unfold fexp, emin, prec, emax in *. lia.
Qed.

(** Rounding a positive integer mantissa at an exponent of binary64 never
    gives zero. *)
Lemma binary_round_aux_not_zero (s : bool) (p : positive) (e : Z) (l : location) :
  -1074 <= e -> sf_is_zero (binary_round_aux prec emax s (Z.pos p) e l) = false.
Proof.
  intros He. rewrite binary_round_aux_steps.
  set (r1 := shr_fexp prec emax (Z.pos p) e l).
  set (m1 := round_nearest_even (shr_m (fst r1)) (loc_of_shr_record (fst r1))).
  set (r2 := shr_fexp prec emax m1 (snd r1) loc_Exact).
  destruct (shr_fexp_exponent (Z.pos p) e l) as (A1 & A2 & A3 & _).
  fold r1 in A1, A2, A3. specialize (A3 ltac:(lia)).
  destruct (round_nearest_even_digits (shr_m (fst r1)) (loc_of_shr_record (fst r1)) A3)
    as [B1 B2]. fold m1 in B1, B2.
  destruct (shr_fexp_exponent m1 (snd r1) loc_Exact) as (C1 & C2 & _ & _).
  fold r2 in C1, C2.
  destruct (shr_m (fst r2)) as [|q|q] eqn:E; [|destruct (snd r2 <=? 971); reflexivity|reflexivity].
  exfalso. change (Zdigits2 0) with 0 in C2.
  change (Zdigits2 (Z.pos p)) with (Z.pos (digits2_pos p)) in *.
  unfold fexp, emin, prec, emax in *. lia.
Qed.

(** Multiplication. *)

Lemma SFmul_comm (x y : spec_float) : SF64mul x y = SF64mul y x.
Proof.
  unfold SF64mul, SFmul.
  destruct x as [sx|sx| |sx mx ex], y as [sy|sy| |sy my ey];
    rewrite ?(xorb_comm sx sy), ?(Pos.mul_comm mx my), ?(Z.add_comm ex ey);
    reflexivity.
Qed.

Lemma SFmul_shift (x y : spec_float) (j : Z) :
  sf_scalable j y = true ->
  valid_binary (SF64mul x y) = true ->
  sf_scalable j (SF64mul x y) = true ->
  (sf_is_zero (SF64mul x y) = true -> sf_is_zero x || sf_is_zero y = true) ->
  SF64mul x (sf_shift j y) = sf_shift j (SF64mul x y).
Proof.
  intros Hy Hv HR Hz.
  destruct y as [sy|sy| |sy my ey]; try discriminate;
    [destruct x; reflexivity|].
  rewrite (sf_shift_finite j sy my ey Hy).
  destruct x as [sx|sx| |sx mx ex]; try discriminate; [reflexivity|].
  unfold SF64mul, SFmul in *.
  replace (ex + (ey + j)) with (ex + ey + j) by lia.
  destruct (binary_round_aux prec emax (xorb sx sy) (Z.pos (mx * my)) (ex + ey) loc_Exact)
    as [s'|s'| |s' mR eR] eqn:ER; try discriminate.
  - specialize (Hz eq_refl). discriminate.
  - destruct (sf_scalable_range _ _ _ _ HR) as (HR1 & HR2 & _).
    rewrite (binary_round_aux_shift _ _ _ _ j
               (binary_round_aux_linear _ _ _ _ _ _ _ j ER Hv HR1 HR2)), ER.
    reflexivity.
Qed.

(** Addition and subtraction. *)

Lemma digits2_pos_iter_xO (m d : positive) :
  digits2_pos (Pos.iter xO m d) = (digits2_pos m + d)%positive.
Proof.
  induction d as [|d IH] using Pos.peano_ind.
  - cbn. lia.
  - rewrite Pos.iter_succ. cbn [digits2_pos]. rewrite IH. lia.
Qed.

Lemma shl_align_shift (m : positive) (e t j : Z) :
  shl_align m (e + j) (t + j) = (fst (shl_align m e t), snd (shl_align m e t) + j).
Proof.
  unfold shl_align. replace (t + j - (e + j)) with (t - e) by lia.
  destruct (t - e); reflexivity.
Qed.

Lemma shl_align_value (m : positive) (e t : Z) :
  Z.pos (digits2_pos (fst (shl_align m e t))) + snd (shl_align m e t)
  = Z.pos (digits2_pos m) + e
  /\ snd (shl_align m e t) = Z.min e t.
Proof.
  unfold shl_align. destruct (t - e) as [|d|d] eqn:E; cbn [fst snd]; try lia.
  rewrite digits2_pos_iter_xO. lia.
Qed.

Lemma binary_round_shift (s : bool) (m : positive) (e j : Z) :
  -1074 <= e ->
  valid_binary (binary_round prec emax s m e) = true ->
  sf_scalable j (binary_round prec emax s m e) = true ->
  binary_round prec emax s m (e + j) = sf_shift j (binary_round prec emax s m e).
Proof.
  intros He Hv HR. unfold binary_round in *.
  set (t := fexp prec emax (Z.pos (digits2_pos m) + e)) in *.
  destruct (shl_align_value m e t) as [V1 V2].
  destruct (shl_align m e t) as [mz ez] eqn:Ea. cbn [fst snd] in V1, V2.
  assert (Hez : -1074 <= ez) by (subst t; unfold fexp, emin, prec, emax in V2; lia).
  pose proof (binary_round_aux_not_zero s mz ez loc_Exact Hez) as Hnz.
  destruct (binary_round_aux prec emax s (Z.pos mz) ez loc_Exact)
    as [s'|s'| |s' mR eR] eqn:ER; try discriminate.
  destruct (sf_scalable_range _ _ _ _ HR) as (HR1 & HR2 & _).
  pose proof (binary_round_aux_linear _ _ _ _ _ _ _ j ER Hv HR1 HR2) as L.
  assert (Et : fexp prec emax (Z.pos (digits2_pos m) + (e + j)) = t + j).
  { destruct L as ([L1 L1'] & _).
    change (Zdigits2 (Z.pos mz)) with (Z.pos (digits2_pos mz)) in L1, L1'.
    subst t. rewrite !fexp_linear by lia. lia. }
  rewrite Et, shl_align_shift, Ea. cbn [fst snd].
  rewrite (binary_round_aux_shift _ _ _ _ j L), ER. reflexivity.
Qed.

Lemma binary_normalize_shift (m e j : Z) :
  -1074 <= e ->
  valid_binary (binary_normalize prec emax m e false) = true ->
  sf_scalable j (binary_normalize prec emax m e false) = true ->
  binary_normalize prec emax m (e + j) false
  = sf_shift j (binary_normalize prec emax m e false).
Proof.
  intros He Hv HR. destruct m as [|p|p]; cbn [binary_normalize] in *;
    [reflexivity| |]; apply binary_round_shift; assumption.
Qed.

Lemma SFadd_shift (x y : spec_float) (j : Z) :
  valid_binary x = true -> valid_binary y = true ->
  sf_scalable j x = true -> sf_scalable j y = true ->
  valid_binary (SF64add x y) = true ->
  sf_scalable j (SF64add x y) = true ->
  SF64add (sf_shift j x) (sf_shift j y) = sf_shift j (SF64add x y).
Proof.
  intros Vx Vy Hx Hy Hv HR.
  destruct x as [sx|sx| |sx mx ex]; try discriminate;
    destruct y as [sy|sy| |sy my ey]; try discriminate;
    rewrite ?(sf_shift_finite j _ _ _ Hx), ?(sf_shift_finite j _ _ _ Hy).
  - destruct sx, sy; reflexivity.
  - cbn. symmetry. apply sf_shift_finite, Hy.
  - cbn. symmetry. apply sf_shift_finite, Hx.
  - apply valid_exponent in Vx, Vy.
    unfold SF64add, SFadd in *.
    replace (Z.min (ex + j) (ey + j)) with (Z.min ex ey + j) by lia.
    rewrite !shl_align_shift. cbn [fst].
    apply binary_normalize_shift; try assumption. lia.
Qed.

Lemma SFsub_shift (x y : spec_float) (j : Z) :
  valid_binary x = true -> valid_binary y = true ->
  sf_scalable j x = true -> sf_scalable j y = true ->
  valid_binary (SF64sub x y) = true ->
  sf_scalable j (SF64sub x y) = true ->
  SF64sub (sf_shift j x) (sf_shift j y) = sf_shift j (SF64sub x y).
Proof.
  intros Vx Vy Hx Hy Hv HR.
  destruct x as [sx|sx| |sx mx ex]; try discriminate;
    destruct y as [sy|sy| |sy my ey]; try discriminate;
    rewrite ?(sf_shift_finite j _ _ _ Hx), ?(sf_shift_finite j _ _ _ Hy).
  - destruct sx, sy; reflexivity.
  - cbn [SF64sub SFsub]. symmetry. apply (sf_shift_finite j (negb sy) my ey), Hy.
  - cbn. symmetry. apply sf_shift_finite, Hx.
  - apply valid_exponent in Vx, Vy.
    unfold SF64sub, SFsub in *.
    replace (Z.min (ex + j) (ey + j)) with (Z.min ex ey + j) by lia.
    rewrite !shl_align_shift. cbn [fst].
    apply binary_normalize_shift; try assumption. lia.
Qed.

(** Comparison. *)

Lemma SFcompare_shift (x y : spec_float) (j : Z) :
  sf_scalable j x = true -> sf_scalable j y = true ->
  SFcompare (sf_shift j x) (sf_shift j y) = SFcompare x y.
Proof.
  intros Hx Hy.
  destruct x as [sx|sx| |sx mx ex]; try discriminate;
    destruct y as [sy|sy| |sy my ey]; try discriminate;
    rewrite ?(sf_shift_finite j _ _ _ Hx), ?(sf_shift_finite j _ _ _ Hy);
    try reflexivity.
  cbn [SFcompare]. rewrite (Z.add_comm ex j), (Z.add_comm ey j), Z.add_compare_mono_l.
  reflexivity.
Qed.

(** The product with a power of two. *)

Lemma SFmul_power_of_two (x : spec_float) (j : Z) :
  valid_binary x = true ->
  sf_scalable j x = true ->
  SF64mul (S754_finite false 4503599627370496 (j - 52)) x = sf_shift j x.
Proof.
  intros Vx Hx. destruct x as [sx|sx| |sx mx ex]; try discriminate; [reflexivity|].
  rewrite (sf_shift_finite j _ _ _ Hx).
  destruct (sf_scalable_range _ _ _ _ Hx) as (H1 & H1' & H2).
  pose proof (valid_normal_digits sx mx ex Vx H1) as Hd.
  unfold SF64mul, SFmul. cbn [xorb].
  rewrite binary_round_aux_steps.
  assert (E1 : shr_fexp prec emax (Z.pos (4503599627370496 * mx)) (j - 52 + ex) loc_Exact
               = ({| shr_m := Z.pos mx; shr_r := false; shr_s := false |}, ex + j)).
  { unfold shr_fexp. cbn [Pos.mul Zdigits2 digits2_pos]. rewrite Hd.
    cbn [Pos.succ]. rewrite fexp_linear by lia.
    replace (105 + (j - 52 + ex) - 53 - (j - 52 + ex)) with 52 by lia.
    cbn [shr shr_record_of_loc iter_pos shr_1 orb]. f_equal. lia. }
  rewrite E1. cbn [fst snd shr_m loc_of_shr_record round_nearest_even].
  assert (E2 : shr_fexp prec emax (Z.pos mx) (ex + j) loc_Exact
               = ({| shr_m := Z.pos mx; shr_r := false; shr_s := false |}, ex + j)).
  { unfold shr_fexp. cbn [Zdigits2]. rewrite Hd, fexp_linear by lia.
    replace (53 + (ex + j) - 53 - (ex + j)) with 0 by lia. reflexivity. }
  rewrite E2. cbn [fst snd shr_m].
  destruct (Z.leb_spec (ex + j) 971); [reflexivity|lia].
Qed.

(** *** Scaling a float by a power of two *)

Lemma SF_zero : Prim2SF 0%float = S754_zero false.
Proof. reflexivity. Qed.

Lemma eqb_zero_true (x : float) :
  (x =? 0)%float = true -> sf_is_zero (Prim2SF x) = true.
Proof.
  rewrite eqb_spec, SF_zero.
  destruct (Prim2SF x) as [s|[|]| |[|] m e]; try discriminate; reflexivity.
Qed.

Lemma scalable_not_nan (j : Z) (x : float) : scalable j x = true -> isna x = false.
Proof.
  unfold scalable, isna, is_nan. rewrite eqb_spec. unfold SFeqb.
  destruct (Prim2SF x) as [s|s| |s m e]; try discriminate; intros _.
  - reflexivity.
  - cbn [SFcompare]. rewrite Z.compare_refl, Pos.compare_cont_refl.
    destruct s; reflexivity.
Qed.

Lemma scaled_scalable_not_nan (j : Z) (x y : float) :
  scaled_by j x y -> scalable j x = true -> isna y = false.
Proof.
  unfold scaled_by, scalable, isna, is_nan. intros E H. rewrite eqb_spec, E.
  unfold SFeqb.
  destruct (Prim2SF x) as [s|s| |s m e]; try discriminate.
  - reflexivity.
  - rewrite (sf_shift_finite j s m e H). cbn [SFcompare].
    rewrite Z.compare_refl, Pos.compare_cont_refl. destruct s; reflexivity.
Qed.

Lemma mul_scaled (j : Z) (k y y' : float) :
  scaled_by j y y' -> scalable j y = true ->
  product_scalable j k y = true ->
  scaled_by j (k * y) (k * y').
Proof.
  unfold scaled_by, scalable, product_scalable. intros E Hy H.
  apply andb_prop in H. destruct H as [HR Hz].
  rewrite !mul_spec, E.
  apply SFmul_shift; try assumption.
  - rewrite <- mul_spec. apply Prim2SF_valid.
  - rewrite <- mul_spec. exact HR.
  - rewrite <- mul_spec. intros Hzero.
    assert (E0 : (k * y =? 0)%float = true).
    { rewrite eqb_spec, SF_zero. destruct (Prim2SF (k * y)); try discriminate.
      reflexivity. }
    rewrite E0 in Hz. cbn [negb orb] in Hz.
    apply orb_prop in Hz. destruct Hz as [Hz|Hz]; apply eqb_zero_true in Hz;
      rewrite Hz; [reflexivity|apply orb_true_r].
Qed.

Lemma mul_scaled_l (j : Z) (d d' t : float) :
  scaled_by j d d' -> scalable j d = true ->
  product_scalable j d t = true ->
  scaled_by j (d * t) (d' * t).
Proof.
  unfold scaled_by, scalable, product_scalable. intros E Hd H.
  apply andb_prop in H. destruct H as [HR Hz].
  rewrite !mul_spec, E. rewrite (SFmul_comm _ (Prim2SF t)), (SFmul_comm (Prim2SF d)).
  apply SFmul_shift; try assumption.
  - rewrite SFmul_comm, <- mul_spec. apply Prim2SF_valid.
  - rewrite SFmul_comm, <- mul_spec. exact HR.
  - rewrite SFmul_comm, <- mul_spec. intros Hzero.
    assert (E0 : (d * t =? 0)%float = true).
    { rewrite eqb_spec, SF_zero. destruct (Prim2SF (d * t)); try discriminate.
      reflexivity. }
    rewrite E0 in Hz. cbn [negb orb] in Hz.
    apply orb_prop in Hz. destruct Hz as [Hz|Hz]; apply eqb_zero_true in Hz;
      rewrite Hz; [apply orb_true_r|reflexivity].
Qed.

Lemma add_scaled (j : Z) (a a' b b' : float) :
  scaled_by j a a' -> scaled_by j b b' ->
  scalable j a = true -> scalable j b = true -> scalable j (a + b) = true ->
  scaled_by j (a + b) (a' + b').
Proof.
  unfold scaled_by, scalable. intros Ea Eb Ha Hb HR.
  rewrite !add_spec, Ea, Eb.
  apply SFadd_shift; try assumption; try apply Prim2SF_valid.
  - rewrite <- add_spec. apply Prim2SF_valid.
  - rewrite <- add_spec. exact HR.
Qed.

Lemma sub_scaled (j : Z) (a a' b b' : float) :
  scaled_by j a a' -> scaled_by j b b' ->
  scalable j a = true -> scalable j b = true -> scalable j (a - b) = true ->
  scaled_by j (a - b) (a' - b').
Proof.
  unfold scaled_by, scalable. intros Ea Eb Ha Hb HR.
  rewrite !sub_spec, Ea, Eb.
  apply SFsub_shift; try assumption; try apply Prim2SF_valid.
  - rewrite <- sub_spec. apply Prim2SF_valid.
  - rewrite <- sub_spec. exact HR.
Qed.

Lemma ltb_scaled (j : Z) (a a' b b' : float) :
  scaled_by j a a' -> scaled_by j b b' ->
  scalable j a = true -> scalable j b = true ->
  (a' <? b')%float = (a <? b)%float.
Proof.
  unfold scaled_by, scalable. intros Ea Eb Ha Hb.
  rewrite !ltb_spec, Ea, Eb. unfold SFltb. rewrite SFcompare_shift by assumption.
  reflexivity.
Qed.

Lemma leb_scaled (j : Z) (a a' b b' : float) :
  scaled_by j a a' -> scaled_by j b b' ->
  scalable j a = true -> scalable j b = true ->
  (a' <=? b')%float = (a <=? b)%float.
Proof.
  unfold scaled_by, scalable. intros Ea Eb Ha Hb.
  rewrite !leb_spec, Ea, Eb. unfold SFleb. rewrite SFcompare_shift by assumption.
  reflexivity.
Qed.

Lemma power_of_two_scaled (c : float) (j : Z) (p : float) :
  power_of_two c j -> scalable j p = true -> scaled_by j p (c * p).
Proof.
  unfold power_of_two, scaled_by, scalable. intros Ec Hp.
  rewrite mul_spec, Ec. apply SFmul_power_of_two; try assumption.
  apply Prim2SF_valid.
Qed.

(** *** The rule under scaling by a power of two *)

Section Scaling.

Variable j : Z.

Abbreviation scaled_pair := (scaled_pair j).

Lemma insert_float_scaled (x x' : float) (l l' : list float) :
  scaled_pair x x' -> Forall2 scaled_pair l l' ->
  Forall2 scaled_pair (insert_float x l) (insert_float x' l').
Proof.
  intros Hx H. induction H as [|h h' t t' Hh Ht IH]; cbn [insert_float].
  - constructor; [exact Hx|constructor].
  - rewrite (leb_scaled j x x' h h') by (apply Hx || apply Hh).
    destruct (x <=? h)%float.
    + constructor; [exact Hx|]. constructor; assumption.
    + constructor; assumption.
Qed.

Lemma sort_floats_scaled (l l' : list float) :
  Forall2 scaled_pair l l' -> Forall2 scaled_pair (sort_floats l) (sort_floats l').
Proof.
  intros H. induction H as [|h h' t t' Hh Ht IH]; cbn [sort_floats fold_right].
  - constructor.
  - apply insert_float_scaled; assumption.
Qed.

Lemma filter_scaled (l l' : list float) :
  Forall2 scaled_pair l l' ->
  filter (fun x => negb (isna x)) l = l /\ filter (fun x => negb (isna x)) l' = l'.
Proof.
  intros H. induction H as [|h h' t t' [Hs Hh] Ht [IH1 IH2]]; cbn [filter].
  - split; reflexivity.
  - rewrite (scalable_not_nan j h Hh), (scaled_scalable_not_nan j h h' Hs Hh).
    cbn [negb]. rewrite IH1, IH2. split; reflexivity.
Qed.

Lemma order_statistics_scaled (s s' : list float) :
  Forall2 scaled_pair s s' ->
  Forall2 scaled_pair (order_statistics s) (order_statistics s').
Proof.
  intros H. unfold order_statistics. destruct (filter_scaled s s' H) as [-> ->].
  apply sort_floats_scaled, H.
Qed.

Lemma nth_scaled (l l' : list float) (i : nat) :
  Forall2 scaled_pair l l' -> scaled_by j (nth i l nan) (nth i l' nan).
Proof.
  intros H. revert i. induction H as [|h h' t t' [Hs _] Ht IH]; intros [|i];
    cbn [nth]; try reflexivity; [exact Hs|apply IH].
Qed.

Lemma Forall2_scaled_length (l l' : list float) :
  Forall2 scaled_pair l l' -> length l' = length l.
Proof. intros H. induction H; cbn [length]; congruence. Qed.

Lemma lerp_scaled (a a' b b' t : float) :
  scaled_by j a a' -> scaled_by j b b' ->
  lerp_scalable j a b t = true ->
  scaled_pair (lerp a b t) (lerp a' b' t).
Proof.
  intros Ea Eb H. unfold lerp_scalable in H.
  apply andb_prop in H. destruct H as [H Hbr].
  apply andb_prop in H. destruct H as [H Hd].
  apply andb_prop in H. destruct H as [Ha Hb].
  assert (Ed : scaled_by j (b - a) (b' - a')) by (apply sub_scaled; assumption).
  unfold lerp, scaled_pair.
  destruct (0.5 <=? t)%float; apply andb_prop in Hbr; destruct Hbr as [Hp Hr].
  - split; [|exact Hr].
    apply sub_scaled; try assumption.
    + apply mul_scaled_l; assumption.
    + unfold product_scalable in Hp. apply andb_prop in Hp. apply Hp.
  - split; [|exact Hr].
    apply add_scaled; try assumption.
    + apply mul_scaled_l; assumption.
    + unfold product_scalable in Hp. apply andb_prop in Hp. apply Hp.
Qed.

Lemma quantile_scaled (s s' : list float) (num : nat) :
  Forall2 scaled_pair s s' ->
  lerp_scalable j (quantile_previous s num) (quantile_next s num)
                (quantile_gamma s num) = true ->
  scaled_pair (quantile s num) (quantile s' num).
Proof.
  intros H Hl.
  pose proof (order_statistics_scaled s s' H) as Ho.
  pose proof (Forall2_scaled_length _ _ Ho) as Hlen.
  assert (Eg : quantile_gamma s' num = quantile_gamma s num).
  { unfold quantile_gamma. rewrite Hlen. reflexivity. }
  assert (Ep : scaled_by j (quantile_previous s num) (quantile_previous s' num)).
  { unfold quantile_previous. rewrite Hlen. apply nth_scaled, Ho. }
  assert (En : scaled_by j (quantile_next s num) (quantile_next s' num)).
  { unfold quantile_next. rewrite Hlen. apply nth_scaled, Ho. }
  unfold quantile.
  destruct (order_statistics s) as [|x l] eqn:E1.
  - exfalso. unfold lerp_scalable, quantile_previous in Hl. rewrite E1 in Hl.
    replace (nth _ [] nan) with nan in Hl by (destruct (_ / 4)%nat; reflexivity).
    discriminate Hl.
  - destruct (order_statistics s') as [|x' l'] eqn:E2; [discriminate Hlen|].
    rewrite Eg. apply lerp_scaled; assumption.
Qed.

Lemma scale_prices_scaled (c : float) (sold_prices : list float) :
  power_of_two c j ->
  forallb (scalable j) sold_prices = true ->
  Forall2 scaled_pair sold_prices (scale_prices c sold_prices).
Proof.
  intros Hc H. induction sold_prices as [|p t IH]; cbn [scale_prices map].
  - constructor.
  - cbn [forallb] in H. apply andb_prop in H. destruct H as [Hp Ht].
    constructor; [|apply IH, Ht].
    split; [apply power_of_two_scaled; assumption|exact Hp].
Qed.

End Scaling.

(** C7, amended.  When [c] is a power of two, [2^j], and every price and
    every intermediate result of the rule (the differences, products and
    sums of the two interpolated quartiles, [iqr], [k * iqr] and the two
    bounds) is zero or is, like its product with [c], a finite normal
    binary64 number of magnitude at least [2^-1021], no product being an
    underflow to zero, the IQR flags of the prices multiplied by [c] are
    those of the prices, record by record. *)
Theorem iqr_flags_power_of_two_invariant (sold_prices : list float) (k c : float)
  (j : Z) :
  power_of_two c j ->
  scaling_is_exact j sold_prices k = true ->
  compute_iqr_flags_cached (scale_prices c sold_prices) k
  = compute_iqr_flags_cached sold_prices k.
Proof.
  intros Hc H. unfold scaling_is_exact in H.
  repeat (let X := fresh "X" in apply andb_prop in H; destruct H as [H X]).
  pose proof (scale_prices_scaled j c sold_prices Hc H) as Hs.
  destruct (quantile_scaled j _ _ 1 Hs X4) as [Q1 S1].
  destruct (quantile_scaled j _ _ 3 Hs X3) as [Q3 S3].
  assert (Ei : scaled_by j (quantile sold_prices 3 - quantile sold_prices 1)
                 (quantile (scale_prices c sold_prices) 3
                  - quantile (scale_prices c sold_prices) 1)).
  { apply sub_scaled; assumption. }
  assert (Ek : scaled_by j (k * (quantile sold_prices 3 - quantile sold_prices 1))
                 (k * (quantile (scale_prices c sold_prices) 3
                       - quantile (scale_prices c sold_prices) 1))).
  { apply mul_scaled; assumption. }
  assert (Sk : scalable j (k * (quantile sold_prices 3 - quantile sold_prices 1)) = true).
  { unfold product_scalable in X1. apply andb_prop in X1. apply X1. }
  assert (Elo : scaled_by j
                  (quantile sold_prices 1
                   - k * (quantile sold_prices 3 - quantile sold_prices 1))
                  (quantile (scale_prices c sold_prices) 1
                   - k * (quantile (scale_prices c sold_prices) 3
                          - quantile (scale_prices c sold_prices) 1))).
  { apply sub_scaled; assumption. }
  assert (Ehi : scaled_by j
                  (quantile sold_prices 3
                   + k * (quantile sold_prices 3 - quantile sold_prices 1))
                  (quantile (scale_prices c sold_prices) 3
                   + k * (quantile (scale_prices c sold_prices) 3
                          - quantile (scale_prices c sold_prices) 1))).
  { apply add_scaled; assumption. }
  unfold compute_iqr_flags_cached. cbv zeta.
  set (lo := (quantile sold_prices 1 - _)%float) in *.
  set (hi := (quantile sold_prices 3 + _)%float) in *.
  set (lo' := (quantile (scale_prices c sold_prices) 1 - _)%float) in *.
  set (hi' := (quantile (scale_prices c sold_prices) 3 + _)%float) in *.
  clearbody lo hi lo' hi'. clear - Hs Elo Ehi X0 X.
  induction Hs as [|p p' t t' [Hp Sp] Ht IH]; cbn [map]; [reflexivity|].
  f_equal; [|exact IH].
  rewrite (ltb_scaled j p p' _ _ Hp Elo Sp X0).
  rewrite (ltb_scaled j _ _ p p' Ehi Hp X Sp). reflexivity.
Qed.

(** C7 as stated fails in binary64: with [k = 1.5] no price of
    [boundary_prices] is flagged, the highest being equal to the upper
    bound; after multiplying every price by 1.1 the upper bound is rounded
    to 164999.99999999997 and the highest price, 165000, is flagged. *)
Lemma iqr_scaling_counterexample :
  ~ iqr_flags_scale_invariant_at boundary_prices 1.5%float 1.1%float.
Proof.
  unfold iqr_flags_scale_invariant_at. intros H.
  specialize (H eq_refl eq_refl). vm_compute in H. discriminate H.
Qed.

Lemma iqr_flags_power_of_two_invariant_witness :
  (power_of_two 8%float 3 /\ scaling_is_exact 3 scenario_D_prices 1.5%float = true)
  /\ compute_iqr_flags_cached (scale_prices 8%float scenario_D_prices) 1.5%float
     = compute_iqr_flags_cached scenario_D_prices 1.5%float.
Proof.
  assert (H1 : power_of_two 8%float 3) by reflexivity.
  assert (H2 : scaling_is_exact 3 scenario_D_prices 1.5%float = true)
    by (vm_compute; reflexivity).
  split; [split; assumption|].
  exact (iqr_flags_power_of_two_invariant scenario_D_prices 1.5%float 8%float 3 H1 H2).
Defined.

(** Scenario D of the specification. *)
Example scenario_D :
  compute_iqr_flags_cached scenario_D_prices 1.5%float
  = [false; false; false; true; false].
Proof. vm_compute. reflexivity. Qed.

(** ** Regression-residual rule *)

Lemma combine_map_map {A B C : Type} (f : A -> B) (g : A -> C) (l : list A) :
  combine (map f l) (map g l) = map (fun x => (f x, g x)) l.
Proof. induction l as [|h t IH]; simpl; [reflexivity|now rewrite IH]. Qed.

Lemma combine_map_r {A B : Type} (f : A -> B) (l : list A) :
  combine l (map f l) = map (fun x => (x, f x)) l.
Proof. induction l as [|h t IH]; simpl; [reflexivity|now rewrite IH]. Qed.

Section RegressionFacts.

Variable np_log : float -> float.
Variable np_linalg_inv : mat2 -> option mat2.
Variable np_linalg_pinv : mat2 -> mat2.

Abbreviation regression := (cooks_distance_time_regression np_log np_linalg_inv np_linalg_pinv).
Abbreviation resid_of := (row_resid np_log np_linalg_inv np_linalg_pinv).
Abbreviation H_of := (row_H np_linalg_inv np_linalg_pinv).
Abbreviation cooks_of := (row_cooks np_log np_linalg_inv np_linalg_pinv).

Lemma reg_resid_rows (out : list (date * float)) :
  reg_resid np_log np_linalg_inv np_linalg_pinv out = map (resid_of out) out.
Proof.
  unfold reg_resid, reg_yhat, reg_y, reg_x1.
  rewrite map_map, combine_map_map, map_map. reflexivity.
Qed.

Lemma reg_H_rows (out : list (date * float)) :
  reg_H np_linalg_inv np_linalg_pinv out = map (H_of out) out.
Proof. unfold reg_H, reg_x1. rewrite map_map. reflexivity. Qed.

Lemma reg_cooks_rows (out : list (date * float)) :
  reg_cooks np_log np_linalg_inv np_linalg_pinv out = map (cooks_of out) out.
Proof.
  unfold reg_cooks. rewrite reg_resid_rows, reg_H_rows, combine_map_map, map_map.
  reflexivity.
Qed.

Lemma reg_HighLeverage_rows (out : list (date * float)) :
  reg_HighLeverage np_log np_linalg_inv np_linalg_pinv out
  = map (fun r => (2.0 <? abs (resid_of out r)
                          / reg_resid_std np_log np_linalg_inv np_linalg_pinv out)%float)
        out.
Proof.
  unfold reg_HighLeverage, reg_studentized. rewrite reg_resid_rows, !map_map.
  reflexivity.
Qed.

Lemma reg_HighCooksD_rows (out : list (date * float)) :
  reg_HighCooksD np_log np_linalg_inv np_linalg_pinv out
  = map (fun r => (reg_cook_thresh out <? cooks_of out r)%float) out.
Proof. unfold reg_HighCooksD. rewrite reg_cooks_rows, map_map. reflexivity. Qed.

(** The table returned when at least six rows are valid, row by row. *)
Lemma cooks_rows (df : list (sale float)) :
  let out := dropna df in
  (6 <= length out)%nat ->
  regression df
  = map (fun r => mkdiag (fst r) (snd r) (H_of out r) (cooks_of out r)
                    (2.0 <? abs (resid_of out r)
                            / reg_resid_std np_log np_linalg_inv np_linalg_pinv out)%float
                    (reg_cook_thresh out <? cooks_of out r)%float) out.
Proof.
  intros out Hn. unfold cooks_distance_time_regression. fold out.
  apply Nat.ltb_ge in Hn. rewrite Hn.
  rewrite reg_H_rows, reg_cooks_rows, reg_HighLeverage_rows, reg_HighCooksD_rows.
  rewrite combine_map_r, !combine_map_map, map_map. reflexivity.
Qed.

Lemma cooks_few_rows (df : list (sale float)) :
  let out := dropna df in
  (length out < 6)%nat ->
  regression df = map (fun r => mkdiag (fst r) (snd r) nan nan false false) out.
Proof.
  intros out Hn. unfold cooks_distance_time_regression. fold out.
  apply Nat.ltb_lt in Hn. rewrite Hn. reflexivity.
Qed.

Lemma cooks_length (df : list (sale float)) :
  length (regression df) = length (dropna df).
Proof.
  destruct (Nat.lt_ge_cases (length (dropna df)) 6) as [Hn|Hn].
  - rewrite (cooks_few_rows df Hn). apply length_map.
  - rewrite (cooks_rows df Hn). apply length_map.
Qed.

End RegressionFacts.

(** The rounding step keeps the sign it is given. *)
Lemma binary_round_aux_sign (s : bool) (m e : Z) (l : location) :
  match binary_round_aux prec emax s m e l with
  | S754_zero s' | S754_infinity s' | S754_finite s' _ _ => s' = s
  | S754_nan => True
  end.
Proof.
  unfold binary_round_aux.
  destruct (shr_fexp prec emax m e l) as [mrs' e'].
  destruct (shr_fexp prec emax _ e' loc_Exact) as [mrs'' e''].
  destruct (shr_m mrs'') as [|p|p]; [reflexivity| |exact I].
  destruct (e'' <=? emax - prec); reflexivity.
Qed.

(** A square root is NaN, a zero, or positive. *)
Lemma sqrt_sign (x : float) :
  match Prim2SF (PrimFloat.sqrt x) with
  | S754_infinity s | S754_finite s _ _ => s = false
  | _ => True
  end.
Proof.
  rewrite sqrt_spec. unfold SF64sqrt, SFsqrt.
  destruct (Prim2SF x) as [s|[|]| |[|] m e]; try exact I; try reflexivity.
  destruct (SFsqrt_core_binary prec emax (Z.pos m) e) as [[mz ez] lz].
  pose proof (binary_round_aux_sign false mz ez lz) as H.
  destruct (binary_round_aux prec emax false mz ez lz); try exact I; exact H.
Qed.

(** The test [np.std(resid) > 0] fails exactly on a zero and on NaN. *)
Lemma std_fallback (l : list float) :
  (0 <? np_std l)%float = negb ((np_std l =? 0)%float || isna (np_std l)).
Proof.
  unfold np_std, isna, is_nan.
  set (v := (fsum _ / _)%float). clearbody v.
  pose proof (sqrt_sign v) as H.
  rewrite ltb_spec, !eqb_spec, SF_zero.
  destruct (Prim2SF (PrimFloat.sqrt v)) as [s|s| |s m e].
  - destruct s; reflexivity.
  - subst s. reflexivity.
  - reflexivity.
  - subst s. unfold SFltb, SFeqb. cbn [SFcompare].
    rewrite Z.compare_refl, Pos.compare_cont_refl. reflexivity.
Qed.

Lemma min_ordinal_le (l : list date) (d : date) :
  In d l -> (min_ordinal l <= toordinal d)%Z.
Proof.
  destruct l as [|h t]; [intros []|]. unfold min_ordinal.
  induction t as [|e t IH]; simpl.
  - intros [<-|[]]. lia.
  - intros [<-|[<-|H]].
    + specialize (IH (or_introl eq_refl)). lia.
    + lia.
    + specialize (IH (or_intror H)). lia.
Qed.

Lemma min_ordinal_attained (l : list date) :
  l <> [] -> exists d, In d l /\ toordinal d = min_ordinal l.
Proof.
  destruct l as [|h t]; [congruence|]. intros _. unfold min_ordinal.
  induction t as [|e t IH]; simpl.
  - exists h. auto.
  - destruct IH as (d & Hd & E).
    destruct (Z.min_spec (toordinal e)
                (fold_right (fun e acc => Z.min (toordinal e) acc) (toordinal h) t))
      as [[_ ->]|[_ ->]].
    + exists e. auto.
    + exists d. split; [|exact E]. simpl in Hd. destruct Hd; auto.
Qed.

Local Open Scope float_scope.

(** C5, amended.  With fewer than six rows holding a date and a price no
    row is flagged.  With six or more, the regressor [x] of a row is its
    whole-day distance from the earliest date (never negative, zero on some
    row), the regressand [y] is [np.log(np.maximum(1.0, price))], and the
    coefficients solve the normal equations through the inverse (or
    pseudo-inverse) of [X.T @ X]; a row is flagged as a price-deviation
    outlier exactly when the absolute residual over the residual standard
    deviation, 1.0 standing in for a deviation that is zero or NaN, exceeds
    2.0, and as a high-influence outlier exactly when the guarded statistic
    [D = (resid^2 / (2 * (mse + 1e-12))) * (H / max(1e-12, 1 - H)^2)]
    exceeds [4 / n]. *)
Theorem regression_outlier_rule (np_log : float -> float)
  (np_linalg_inv : mat2 -> option mat2) (np_linalg_pinv : mat2 -> mat2)
  (df : list (sale float)) :
  let out := dropna df in
  let n := length out in
  let res := cooks_distance_time_regression np_log np_linalg_inv np_linalg_pinv df in
  let days := fun r : date * float => (toordinal (fst r) - min_ordinal (map fst out))%Z in
  let x := fun r => float_of_Z (days r) in
  let y := fun r : date * float => np_log (np_maximum 1.0 (snd r)) in
  let XtX := mkmat2 (fsum (map (fun r => 1 * 1) out)) (fsum (map (fun r => 1 * x r) out))
                    (fsum (map (fun r => x r * 1) out)) (fsum (map (fun r => x r * x r) out)) in
  let XtX_inv := match np_linalg_inv XtX with
                 | Some m => m
                 | None => np_linalg_pinv XtX
                 end in
  let Xty := (fsum (map (fun r => 1 * y r) out), fsum (map (fun r => x r * y r) out)) in
  let b0 := m11 XtX_inv * fst Xty + m12 XtX_inv * snd Xty in
  let b1 := m21 XtX_inv * fst Xty + m22 XtX_inv * snd Xty in
  let resid := fun r => y r - (1 * b0 + x r * b1) in
  let H := fun r => (1 * m11 XtX_inv + x r * m21 XtX_inv) * 1
                    + (1 * m12 XtX_inv + x r * m22 XtX_inv) * x r in
  let mse := fsum (map (fun r => resid r * resid r) out)
             / float_of_Z (Z.max 1 (Z.of_nat n - 2))%Z in
  let D := fun r => (resid r * resid r / (2 * (mse + 1e-12)))
                    * (H r / (np_maximum 1e-12 (1 - H r) * np_maximum 1e-12 (1 - H r))) in
  let sd := np_std (map resid out) in
  let resid_std := if (sd =? 0) || isna sd then 1.0 else sd in
  ((n < 6)%nat ->
   forall r, In r res -> HighLeverage r = false /\ HighCooksD r = false)
  /\ (forall r, In r out -> (0 <= days r)%Z)
  /\ (out <> [] -> exists r, In r out /\ days r = 0%Z)
  /\ ((6 <= n)%nat ->
      map (fun r => (diag_date r, diag_price r)) res = out
      /\ map HighLeverage res = map (fun r => 2.0 <? abs (resid r) / resid_std) out
      /\ map Leverage res = map H out
      /\ map CooksD res = map D out
      /\ map HighCooksD res = map (fun r => 4 / float_of_Z (Z.of_nat n) <? D r) out).
Proof.
  intros out n res days x y XtX XtX_inv Xty b0 b1 resid H mse D sd resid_std.
  assert (Ex1 : reg_x1 out = map x out) by reflexivity.
  assert (EX : reg_XtX out = XtX).
  { unfold reg_XtX, XtX. rewrite Ex1, !map_map. reflexivity. }
  assert (EI : reg_XtX_inv np_linalg_inv np_linalg_pinv out = XtX_inv).
  { unfold reg_XtX_inv. rewrite EX. reflexivity. }
  assert (Ey : reg_Xty np_log out = Xty).
  { unfold reg_Xty, reg_y, Xty. rewrite Ex1, combine_map_map, !map_map. reflexivity. }
  assert (Eb : reg_beta np_log np_linalg_inv np_linalg_pinv out = (b0, b1)).
  { unfold reg_beta. rewrite EI, Ey. reflexivity. }
  assert (Er : forall r, row_resid np_log np_linalg_inv np_linalg_pinv out r = resid r).
  { intros r. unfold row_resid. rewrite Eb. reflexivity. }
  assert (EH : forall r, row_H np_linalg_inv np_linalg_pinv out r = H r).
  { intros r. unfold row_H. rewrite EI. reflexivity. }
  assert (Em : reg_mse np_log np_linalg_inv np_linalg_pinv out = mse).
  { unfold reg_mse. rewrite reg_resid_rows, map_map.
    rewrite (map_ext _ (fun r => (resid r * resid r)%float))
      by (intros r; rewrite Er; reflexivity).
    reflexivity. }
  assert (ED : forall r, row_cooks np_log np_linalg_inv np_linalg_pinv out r = D r).
  { intros r. unfold row_cooks. rewrite Em, Er, EH. reflexivity. }
  assert (Es : reg_resid_std np_log np_linalg_inv np_linalg_pinv out = resid_std).
  { unfold reg_resid_std. rewrite reg_resid_rows.
    rewrite (map_ext _ resid) by exact Er. rewrite std_fallback. fold sd.
    unfold resid_std. destruct ((sd =? 0)%float || isna sd); reflexivity. }
  split; [|split; [|split]].
  - intros Hn r Hr. subst res.
    rewrite (cooks_few_rows np_log np_linalg_inv np_linalg_pinv df Hn) in Hr.
    apply in_map_iff in Hr. destruct Hr as (s & <- & _). split; reflexivity.
  - intros r Hr. subst days. cbv beta.
    pose proof (min_ordinal_le (map fst out) (fst r) (in_map fst out r Hr)). lia.
  - intros Hne.
    destruct (min_ordinal_attained (map fst out)) as (d & Hd & E).
    { destruct out; [congruence|discriminate]. }
    apply in_map_iff in Hd. destruct Hd as (r & <- & Hr).
    exists r. split; [exact Hr|]. subst days. cbv beta. lia.
  - intros Hn. subst res.
    rewrite (cooks_rows np_log np_linalg_inv np_linalg_pinv df Hn). fold out.
    rewrite !map_map. cbn [diag_date diag_price HighLeverage Leverage CooksD HighCooksD].
    rewrite Es. repeat split.
    + rewrite <- (map_id out) at 2. apply map_ext. intros [d p]. reflexivity.
    + apply map_ext. intros r. rewrite Er. reflexivity.
    + apply map_ext. exact EH.
    + apply map_ext. exact ED.
    + apply map_ext. intros r. rewrite ED. reflexivity.
Qed.

Local Close Scope float_scope.

(** C5 as stated fails for the statistic of the specification,
    [(resid^2 / (p * mse)) * (H / (1 - H)^2)]: on [near_flat_sales] it is
    about 2.2 on the last row, above [4 / 6], while the guarded statistic
    of the source is about 0.23 there and the row is not flagged. *)
Lemma high_influence_counterexample :
  ~ high_influence_as_stated np_log_at_examples lu_inverse pinv_rank_one near_flat_sales.
Proof.
  unfold high_influence_as_stated. intros H.
  assert (Hn : (6 <= length (dropna near_flat_sales))%nat) by (vm_compute; lia).
  specialize (H Hn). vm_compute in H. discriminate H.
Qed.


(** Prices on a line with a slope are not on the fitted trend, which is a
    line in the logarithm of the price: the last sale of [price_line_sales]
    has a Cook's statistic above [4 / 6]. *)
Example price_line_last_sale_flagged :
  map HighCooksD
      (cooks_distance_time_regression np_log_at_examples lu_inverse pinv_rank_one
                                      price_line_sales)
  = [false; false; false; false; false; true].
Proof. vm_compute. reflexivity. Qed.

(** * Further properties *)

(** ** Monthly Index Builder *)

Lemma insert_key_In_iff (k x : date) (ks : list date) :
  In x (insert_key k ks) <-> x = k \/ In x ks.
Proof.
  split; [apply insert_key_In|].
  induction ks as [|h t IH]; simpl.
  - intros [->|[]]. now left.
  - destruct (date_ltb k h) eqn:Hlt; [simpl; intuition|].
    destruct (date_eqb k h) eqn:Heq.
    + apply date_eqb_eq in Heq. subst h. simpl. intuition.
    + simpl. intuition.
Qed.

Lemma group_keys_In (x : date) (months : list date) :
  In x (group_keys months) <-> In x months.
Proof.
  induction months as [|k t IH]; simpl; [reflexivity|].
  rewrite insert_key_In_iff, IH. intuition.
Qed.

Lemma sorted_NoDup (l : list date) : StronglySorted date_lt l -> NoDup l.
Proof.
  induction 1 as [|h t Hs IH Hall]; constructor; [|exact IH].
  intros Hin. rewrite Forall_forall in Hall. specialize (Hall h Hin).
  unfold date_lt in Hall. rewrite date_ltb_irrefl in Hall. discriminate.
Qed.

Lemma build_rows (df : list (sale float)) (min_sales : Z) (b : bucket) :
  In b (build_monthly_index_price df min_sales) ->
  In (Month b) (group_keys (map (fun r => month_start (fst r)) (dropna df)))
  /\ SalesCount b = Z.of_nat (length (group_prices (dropna df) (Month b)))
  /\ MedianPrice b = median (group_prices (dropna df) (Month b))
  /\ ThinMonth b = (SalesCount b <? min_sales).
Proof.
  unfold build_monthly_index_price. rewrite in_map_iff.
  intros [[[[k c] md] x] [<- Hin]]. apply in_combine_l in Hin.
  unfold monthly_agg in Hin. apply in_map_iff in Hin.
  destruct Hin as (k' & E & Hk). injection E as -> <- <-.
  cbn [Month SalesCount MedianPrice ThinMonth]. auto.
Qed.

Lemma group_prices_length_pos (d : list (date * float)) (k : date) :
  In k (map (fun r => month_start (fst r)) d) ->
  (1 <= length (group_prices d k))%nat.
Proof.
  rewrite in_map_iff. intros (r & E & Hr). unfold group_prices.
  rewrite length_map.
  assert (H : In r (filter (fun r => date_eqb (month_start (fst r)) k) d)).
  { apply filter_In. split; [exact Hr|]. apply date_eqb_eq, E. }
  destruct (filter (fun r => date_eqb (month_start (fst r)) k) d);
    [destruct H|simpl; lia].
Qed.

(** X2.  Every row of the monthly table is the first day of a month, counts
    at least one sale and is the month of some valid record; every valid
    record has the row of its month; and no month appears twice. *)
Theorem monthly_buckets_cover_the_sales (df : list (sale float)) (min_sales : Z) :
  let m := build_monthly_index_price df min_sales in
  (forall b, In b m ->
     day (Month b) = 1 /\ 1 <= SalesCount b
     /\ exists r, In r (dropna df) /\ month_start (fst r) = Month b)
  /\ (forall r, In r (dropna df) ->
        exists b, In b m /\ Month b = month_start (fst r))
  /\ NoDup (map Month m).
Proof.
  intros m. destruct (build_columns df min_sales) as (Hm & _ & _). fold m in Hm.
  split; [|split].
  - intros b Hb. destruct (build_rows df min_sales b Hb) as (Hk & Hc & _ & _).
    rewrite group_keys_In in Hk.
    pose proof (group_prices_length_pos _ _ Hk) as Hpos.
    apply in_map_iff in Hk. destruct Hk as (r & E & Hr).
    split; [rewrite <- E; reflexivity|].
    split; [rewrite Hc; lia|]. exists r. auto.
  - intros r Hr.
    assert (Hk : In (month_start (fst r)) (map Month m)).
    { rewrite Hm. apply group_keys_In.
      apply (in_map (fun r => month_start (fst r))), Hr. }
    apply in_map_iff in Hk. destruct Hk as (b & E & Hb). exists b. auto.
  - rewrite Hm. apply sorted_NoDup, group_keys_sorted.
Qed.

Lemma zsum_map_add {A : Type} (f g : A -> Z) (l : list A) :
  zsum (map (fun k => f k + g k) l) = zsum (map f l) + zsum (map g l).
Proof. induction l as [|h t IH]; simpl; [reflexivity|]. rewrite IH. lia. Qed.

Lemma zsum_indicator_absent (x : date) (keys : list date) :
  ~ In x keys -> zsum (map (fun k => if date_eqb x k then 1 else 0) keys) = 0.
Proof.
  induction keys as [|h t IH]; simpl; [reflexivity|]. intros Hn.
  destruct (date_eqb x h) eqn:E.
  - apply date_eqb_eq in E. subst. exfalso. apply Hn. now left.
  - rewrite IH; [reflexivity|]. intros H. apply Hn. now right.
Qed.

Lemma zsum_indicator (x : date) (keys : list date) :
  NoDup keys -> In x keys ->
  zsum (map (fun k => if date_eqb x k then 1 else 0) keys) = 1.
Proof.
  induction 1 as [|h t Hnotin Hnd IH]; simpl; [intros []|].
  intros [->|Hin].
  - replace (date_eqb x x) with true by (symmetry; apply date_eqb_eq; reflexivity).
    rewrite zsum_indicator_absent by exact Hnotin. reflexivity.
  - destruct (date_eqb x h) eqn:E.
    + apply date_eqb_eq in E. subst. contradiction.
    + rewrite IH by exact Hin. reflexivity.
Qed.

Lemma group_sizes_sum (d : list (date * float)) (keys : list date) :
  NoDup keys ->
  (forall r, In r d -> In (month_start (fst r)) keys) ->
  zsum (map (fun k => Z.of_nat (length (group_prices d k))) keys)
  = Z.of_nat (length d).
Proof.
  intros Hnd. induction d as [|r d IH]; intros Hall.
  - unfold group_prices. simpl. induction keys as [|k t IHk]; simpl; [reflexivity|].
    inversion Hnd; subst. rewrite IHk; auto. intros r [].
  - transitivity
      (zsum (map (fun k => (if date_eqb (month_start (fst r)) k then 1 else 0)
                           + Z.of_nat (length (group_prices d k))) keys)).
    { f_equal. apply map_ext. intros k. unfold group_prices. cbn [filter].
      destruct (date_eqb (month_start (fst r)) k); cbn [map length];
        [rewrite Nat2Z.inj_succ|]; lia. }
    rewrite zsum_map_add, IH, zsum_indicator.
    + cbn [length]. rewrite Nat2Z.inj_succ. lia.
    + exact Hnd.
    + apply Hall. now left.
    + intros x Hx. apply Hall. now right.
Qed.

Lemma build_counts (df : list (sale float)) (min_sales : Z) :
  map SalesCount (build_monthly_index_price df min_sales)
  = map (fun k => Z.of_nat (length (group_prices (dropna df) k)))
        (group_keys (map (fun r => month_start (fst r)) (dropna df))).
Proof.
  unfold build_monthly_index_price.
  assert (G : forall (m : list (date * Z * float)) (raw : list float),
             length raw = length m ->
             map SalesCount
                 (map (fun '((k, c, md), r) => mkbucket k c md (c <? min_sales) r)
                      (combine m raw))
             = map (fun t => snd (fst t)) m).
  { induction m as [|[[k c] md] t IH]; intros [|x raw] Hlen; simpl in *;
      try discriminate; auto.
    injection Hlen as Hlen. rewrite IH by exact Hlen. reflexivity. }
  rewrite G by (rewrite index_raw_column_length, length_map; reflexivity).
  unfold monthly_agg. rewrite map_map. reflexivity.
Qed.

(** X3.  The sale counts of the monthly table add up to the number of
    records that have a date and a price: each is counted in one month. *)
Theorem sales_counts_add_up (df : list (sale float)) (min_sales : Z) :
  zsum (map SalesCount (build_monthly_index_price df min_sales))
  = Z.of_nat (length (dropna df)).
Proof.
  rewrite build_counts. apply group_sizes_sum.
  - apply sorted_NoDup, group_keys_sorted.
  - intros r Hr. apply group_keys_In.
    apply (in_map (fun r => month_start (fst r))), Hr.
Qed.


Lemma insert_float_In (x y : float) (l : list float) :
  In x (insert_float y l) <-> x = y \/ In x l.
Proof.
  induction l as [|h t IH]; simpl; [intuition|].
  destruct (y <=? h)%float; simpl; [intuition|]. rewrite IH. intuition.
Qed.

Lemma sort_floats_In (x : float) (l : list float) :
  In x (sort_floats l) <-> In x l.
Proof.
  induction l as [|h t IH]; simpl; [reflexivity|].
  rewrite insert_float_In, IH. intuition.
Qed.

Lemma insert_float_length (y : float) (l : list float) :
  length (insert_float y l) = S (length l).
Proof.
  induction l as [|h t IH]; simpl; [reflexivity|].
  destruct (y <=? h)%float; simpl; [reflexivity|]. now rewrite IH.
Qed.

Lemma sort_floats_length (l : list float) : length (sort_floats l) = length l.
Proof.
  induction l as [|h t IH]; simpl; [reflexivity|].
  rewrite insert_float_length, IH. reflexivity.
Qed.

Lemma median_of_prices (l : list float) :
  l <> [] ->
  if Nat.odd (length l)
  then In (median l) l
  else exists a b, In a l /\ In b l /\ median l = ((a + b) / 2)%float.
Proof.
  intros Hne. unfold median. rewrite sort_floats_length.
  assert (Hs : forall i, (i < length l)%nat -> In (nth i (sort_floats l) nan) l).
  { intros i Hi. apply sort_floats_In, nth_In. rewrite sort_floats_length. exact Hi. }
  destruct (length l) as [|n] eqn:E; [destruct l; [congruence|discriminate]|].
  assert (H1 : (S n / 2 < S n)%nat) by (apply Nat.div_lt; lia).
  destruct (Nat.odd (S n)).
  - apply Hs. exact H1.
  - exists (nth (S n / 2) (sort_floats l) nan),
           (nth (S n / 2 - 1) (sort_floats l) nan).
    repeat split; apply Hs; lia.
Qed.

Lemma group_prices_In (d : list (date * float)) (k : date) (p : float) :
  In p (group_prices d k) <-> exists r, In r d /\ month_start (fst r) = k /\ snd r = p.
Proof.
  unfold group_prices. rewrite in_map_iff. split.
  - intros (r & E & Hr). apply filter_In in Hr. destruct Hr as [Hr Hk].
    apply date_eqb_eq in Hk. exists r. auto.
  - intros (r & Hr & Hk & E). exists r. split; [exact E|].
    apply filter_In. split; [exact Hr|]. apply date_eqb_eq, Hk.
Qed.

Lemma dropna_In (df : list (sale float)) (d : date) (p : float) :
  In (d, p) (dropna df)
  <-> exists s, In s df /\ ContractDate s = Some d /\ SoldPrice s = p
                /\ isna p = false.
Proof.
  induction df as [|s t IH]; simpl.
  - split; [intros []|intros (s & [] & _)].
  - destruct (ContractDate s) as [d0|] eqn:Ed.
    + destruct (isna (SoldPrice s)) eqn:En.
      * rewrite IH. split.
        -- intros (x & Hx & H). exists x. auto.
        -- intros (x & [<-|Hx] & H1 & H2 & H3).
           ++ subst p. congruence.
           ++ exists x. auto.
      * simpl. rewrite IH. split.
        -- intros [E|(x & Hx & H)].
           ++ injection E as <- <-. exists s. auto.
           ++ exists x. auto.
        -- intros (x & [<-|Hx] & H1 & H2 & H3).
           ++ left. congruence.
           ++ right. exists x. auto.
    + rewrite IH. split.
      * intros (x & Hx & H). exists x. auto.
      * intros (x & [<-|Hx] & H1 & H2 & H3); [congruence|]. exists x. auto.
Qed.

Lemma odd_of_nat (n : nat) : Z.odd (Z.of_nat n) = Nat.odd n.
Proof.
  assert (H : Z.odd (Z.of_nat n) = Nat.odd n /\ Z.even (Z.of_nat n) = Nat.even n).
  { induction n as [|n [IH1 IH2]]; [split; reflexivity|].
    rewrite Nat2Z.inj_succ, Z.odd_succ, Z.even_succ, Nat.odd_succ, Nat.even_succ.
    split; assumption. }
  apply H.
Qed.

(** X4.  The median price of a monthly row is the price of a valid sale of
    that month when the count is odd, and the mean of the prices of two valid
    sales of that month when it is even. *)
Theorem median_price_from_sales (df : list (sale float)) (min_sales : Z) (b : bucket) :
  In b (build_monthly_index_price df min_sales) ->
  let in_month := fun s : sale float =>
    In s df /\ isna (SoldPrice s) = false
    /\ exists d, ContractDate s = Some d /\ month_start d = Month b in
  if Z.odd (SalesCount b)
  then exists s, in_month s /\ MedianPrice b = SoldPrice s
  else exists s1 s2, in_month s1 /\ in_month s2
         /\ MedianPrice b = ((SoldPrice s1 + SoldPrice s2) / 2)%float.
Proof.
  intros Hb in_month.
  destruct (build_rows df min_sales b Hb) as (Hk & Hc & Hmed & _).
  rewrite group_keys_In in Hk.
  pose proof (group_prices_length_pos _ _ Hk) as Hpos.
  assert (Hne : group_prices (dropna df) (Month b) <> []).
  { intros E. rewrite E in Hpos. simpl in Hpos. lia. }
  pose proof (median_of_prices _ Hne) as Hm.
  assert (Hsale : forall p, In p (group_prices (dropna df) (Month b)) ->
                            exists s, in_month s /\ SoldPrice s = p).
  { intros p Hp. apply group_prices_In in Hp. destruct Hp as ([d q] & Hr & Hmo & E).
    simpl in Hmo, E. subst q. apply dropna_In in Hr.
    destruct Hr as (s & Hs & Hd & Hp & Hn). exists s. split; [|exact Hp].
    unfold in_month. rewrite Hp. repeat split; auto. exists d. auto. }
  rewrite Hc, odd_of_nat.
  destruct (Nat.odd (length (group_prices (dropna df) (Month b)))).
  - destruct (Hsale _ Hm) as (s & Hs & E). exists s. split; [exact Hs|]. rewrite Hmed. symmetry. exact E.
  - destruct Hm as (a & c & Ha & Hcc & E).
    destruct (Hsale _ Ha) as (s1 & Hs1 & E1), (Hsale _ Hcc) as (s2 & Hs2 & E2).
    exists s1, s2. split; [exact Hs1|]. split; [exact Hs2|].
    rewrite Hmed, E, E1, E2. reflexivity.
Qed.

(** ** Index Lookup on the built index *)

Lemma dropna_all_invalid (df : list (sale float)) :
  (forall s, In s df -> ContractDate s = None \/ isna (SoldPrice s) = true) ->
  dropna df = [].
Proof.
  induction df as [|s t IH]; intros H; simpl; [reflexivity|].
  destruct (H s (or_introl eq_refl)) as [E|E]; rewrite E.
  - apply IH. intros x Hx. apply H. now right.
  - destruct (ContractDate s); apply IH; intros x Hx; apply H; now right.
Qed.

(** X5.  When no record has both a date and a price the monthly table and
    the post-processed index are empty, and every lookup in it returns NaN,
    no month and the mode [no_index]. *)
Theorem no_valid_sales_no_index
  (polyfit : list float -> list float -> float * float)
  (df : list (sale float)) (min_sales smooth_window : Z)
  (t : option date) (c : index_col) :
  (forall s, In s df -> ContractDate s = None \/ isna (SoldPrice s) = true) ->
  build_monthly_index_price df min_sales = []
  /\ build_index_cached polyfit df min_sales smooth_window = []
  /\ lookup_index (build_index_cached polyfit df min_sales smooth_window) t c
     = (nan, None, "no_index"%string).
Proof.
  intros H. apply dropna_all_invalid in H.
  assert (E : build_monthly_index_price df min_sales = []).
  { unfold build_monthly_index_price. rewrite H. reflexivity. }
  assert (E2 : build_index_cached polyfit df min_sales smooth_window = []).
  { unfold build_index_cached. rewrite E. reflexivity. }
  rewrite E2. repeat split; assumption.
Qed.

Lemma no_valid_sales_no_index_witness :
  (forall s, In s [mksale None 250000%float;
                   mksale (Some (mkdate 2024 3 9)) nan] ->
             ContractDate s = None \/ isna (SoldPrice s) = true)
  /\ lookup_index
       (build_index_cached (fun _ _ => (0%float, 1%float))
          [mksale None 250000%float; mksale (Some (mkdate 2024 3 9)) nan] 3 6)
       (Some (mkdate 2024 3 9)) Col_Smoothed
     = (nan, None, "no_index"%string).
Proof.
  assert (H : forall s, In s [mksale None 250000%float;
                              mksale (Some (mkdate 2024 3 9)) nan] ->
                        ContractDate s = None \/ isna (SoldPrice s) = true).
  { intros s [<-|[<-|[]]]; [left|right]; reflexivity. }
  split; [exact H|].
  exact (proj2 (proj2 (no_valid_sales_no_index (fun _ _ => (0%float, 1%float)) _ 3 6
                         (Some (mkdate 2024 3 9)) Col_Smoothed H))).
Defined.

Lemma lookup_exact_of_row (index_df : list index_row) (t : date)
  (c : index_col) (r : index_row) :
  NoDup (map (fun r => Month (base r)) index_df) ->
  In r index_df -> Month (base r) = month_start t ->
  lookup_index index_df (Some t) c = (column c r, Some (month_start t), "exact"%string).
Proof.
  intros Hnd Hin Hm. unfold lookup_index.
  destruct index_df as [|r0 rest] eqn:E; [destruct Hin|]. rewrite <- E in *.
  destruct (filter (fun r => date_eqb (Month (base r)) (month_start t)) index_df)
    as [|x xs] eqn:F.
  - assert (Hf : In r (filter (fun r => date_eqb (Month (base r)) (month_start t))
                          index_df)).
    { apply filter_In. split; [exact Hin|]. apply date_eqb_eq, Hm. }
    rewrite F in Hf. destruct Hf.
  - assert (Hx : In x (filter (fun r => date_eqb (Month (base r)) (month_start t))
                          index_df)).
    { rewrite F. now left. }
    apply filter_In in Hx. destruct Hx as [Hx1 Hx2]. apply date_eqb_eq in Hx2.
    assert (x = r) as -> by (apply (unique_month index_df); congruence).
    reflexivity.
Qed.

Lemma index_months (polyfit : list float -> list float -> float * float)
  (df : list (sale float)) (min_sales smooth_window : Z) :
  map (fun r => Month (base r)) (build_index_cached polyfit df min_sales smooth_window)
  = group_keys (map (fun r => month_start (fst r)) (dropna df)).
Proof.
  unfold build_index_cached.
  destruct (post_processor_columns polyfit (build_monthly_index_price df min_sales)
              smooth_window) as (Hb & _).
  destruct (build_columns df min_sales) as (Hm & _).
  rewrite <- Hm.
  transitivity
    (map Month (map base (add_smoothed_and_regression polyfit
                            (build_monthly_index_price df min_sales) smooth_window))).
  - rewrite map_map. reflexivity.
  - rewrite Hb. reflexivity.
Qed.

(** X6.  In the index built from a data set, the contract date of every
    valid sale of that data set resolves in [exact] mode, to the row of its
    own month, whichever column is read. *)
Theorem own_sales_resolve_exactly
  (polyfit : list float -> list float -> float * float)
  (df : list (sale float)) (min_sales smooth_window : Z)
  (s : sale float) (d : date) (c : index_col) :
  In s df -> ContractDate s = Some d -> isna (SoldPrice s) = false ->
  let index_df := build_index_cached polyfit df min_sales smooth_window in
  exists r, In r index_df /\ Month (base r) = month_start d
            /\ lookup_index index_df (Some d) c
               = (column c r, Some (month_start d), "exact"%string).
Proof.
  intros Hs Hd Hp index_df.
  pose proof (index_months polyfit df min_sales smooth_window) as Hm.
  fold index_df in Hm.
  assert (Hin : In (month_start d) (map (fun r => Month (base r)) index_df)).
  { rewrite Hm. apply group_keys_In.
    apply (in_map (fun r => month_start (fst r)) _ (d, SoldPrice s)).
    apply dropna_In. exists s. auto. }
  apply in_map_iff in Hin. destruct Hin as (r & E & Hr).
  exists r. split; [exact Hr|]. split; [exact E|].
  apply lookup_exact_of_row; [|exact Hr|exact E].
  rewrite Hm. apply sorted_NoDup, group_keys_sorted.
Qed.

Lemma own_sales_resolve_exactly_witness :
  let s := mksale (Some (mkdate 2024 2 1)) 310000%float in
  (In s scenario_A_sales /\ ContractDate s = Some (mkdate 2024 2 1)
   /\ isna (SoldPrice s) = false)
  /\ exists r,
       In r (build_index_cached (fun _ _ => (0%float, 1%float)) scenario_A_sales 1 6)
       /\ Month (base r) = month_start (mkdate 2024 2 1)
       /\ lookup_index
            (build_index_cached (fun _ _ => (0%float, 1%float)) scenario_A_sales 1 6)
            (Some (mkdate 2024 2 1)) Col_Raw
          = (column Col_Raw r, Some (month_start (mkdate 2024 2 1)), "exact"%string).
Proof.
  intros s.
  assert (H1 : In s scenario_A_sales) by (right; left; reflexivity).
  assert (H2 : ContractDate s = Some (mkdate 2024 2 1)) by reflexivity.
  assert (H3 : isna (SoldPrice s) = false) by reflexivity.
  split; [repeat split; assumption|].
  exact (own_sales_resolve_exactly (fun _ _ => (0%float, 1%float)) scenario_A_sales
           1 6 s (mkdate 2024 2 1) Col_Raw H1 H2 H3).
Defined.

(** X7.  A lookup that names a month returns the value of a row of the
    table whose month is at or before the target month, in [exact] mode when
    it is the target month and in [prior] mode otherwise; a lookup that names
    no month returns NaN, and then no row is at or before the target. *)
Theorem lookup_never_looks_ahead (index_df : list index_row) (t : date)
  (c : index_col) :
  let m := month_start t in
  match lookup_index index_df (Some t) c with
  | (v, Some used, mode) =>
      date_le used m
      /\ (exists r, In r index_df /\ Month (base r) = used /\ v = column c r)
      /\ (mode = "exact"%string /\ used = m
          \/ mode = "prior"%string /\ used <> m)
  | (v, None, mode) =>
      v = nan /\ (mode = "no_index"%string \/ mode = "no_prior"%string)
      /\ forall r, In r index_df -> ~ date_le (Month (base r)) m
  end.
Proof.
  intros m. unfold lookup_index. fold m.
  destruct index_df as [|r0 rest] eqn:E.
  { split; [reflexivity|]. split; [now left|]. intros r []. }
  rewrite <- E. clear E r0 rest.
  destruct (filter (fun r => date_eqb (Month (base r)) m) index_df) as [|x xs] eqn:F.
  - set (prior := filter (fun r => date_leb (Month (base r)) m) index_df).
    destruct (rev (sort_by_month prior)) as [|p front] eqn:R.
    + split; [reflexivity|]. split; [now right|].
      intros r Hr Hle.
      assert (Hp : In r (sort_by_month prior)).
      { apply sort_by_month_In, filter_In. split; assumption. }
      rewrite <- (rev_involutive (sort_by_month prior)), R in Hp. destruct Hp.
    + assert (Hp : In p (sort_by_month prior)).
      { rewrite <- (rev_involutive (sort_by_month prior)), R. simpl.
        apply in_or_app. right. now left. }
      apply sort_by_month_In, filter_In in Hp. destruct Hp as [Hp1 Hp2].
      split; [exact Hp2|]. split; [exists p; auto|].
      right. split; [reflexivity|]. intros Hm.
      assert (Hf : In p (filter (fun r => date_eqb (Month (base r)) m) index_df)).
      { apply filter_In. split; [exact Hp1|]. apply date_eqb_eq, Hm. }
      rewrite F in Hf. destruct Hf.
  - assert (Hx : In x (filter (fun r => date_eqb (Month (base r)) m) index_df)).
    { rewrite F. now left. }
    apply filter_In in Hx. destruct Hx as [Hx1 Hx2]. apply date_eqb_eq in Hx2.
    split; [apply date_le_refl|]. split; [exists x; auto|].
    left. auto.
Qed.

(** ** Labels and threshold of the Adjustment Calculator *)

Lemma SF_half : Prim2SF 0.5%float = S754_finite false 4503599627370496 (-53).
Proof. reflexivity. Qed.
Lemma SF_neg_half : Prim2SF (- 0.5)%float = S754_finite true 4503599627370496 (-53).
Proof. reflexivity. Qed.
Lemma SF_tenth : Prim2SF 0.1%float = S754_finite false 7205759403792794 (-56).
Proof. reflexivity. Qed.

Ltac sf_cases :=
  repeat match goal with
         | H : context [(?a ?= ?b)%Z] |- _ =>
             let E := fresh "E" in
             destruct (Z.compare_spec a b) as [E|E|E]
         | |- context [(?a ?= ?b)%Z] =>
             let E := fresh "E" in
             destruct (Z.compare_spec a b) as [E|E|E]
         end;
  try discriminate; try reflexivity; try lia.

Lemma above_half (x : float) :
  (0.5 <? x)%float = true ->
  (abs x <? 0.1)%float = false /\ (0 <? x)%float = true /\ isna x = false.
Proof.
  unfold isna, PrimFloat.is_nan.
  rewrite !FloatAxioms.ltb_spec, FloatAxioms.eqb_spec, FloatAxioms.abs_spec,
    SF_half, SF_tenth, SF_zero.
  unfold SFltb, SFeqb.
  destruct (Prim2SF x) as [s|s| |s m e]; cbn [SFabs SFcompare].
  - destruct s; discriminate.
  - destruct s; [discriminate|]. auto.
  - discriminate.
  - destruct s; [discriminate|].
    intros H. rewrite Pos.compare_cont_refl, Z.compare_refl. cbn [negb].
    repeat split. sf_cases.
Qed.

Lemma below_neg_half (x : float) :
  (x <? - 0.5)%float = true ->
  (abs x <? 0.1)%float = false /\ (0 <? x)%float = false /\ isna x = false
  /\ (0.5 <? x)%float = false.
Proof.
  unfold isna, PrimFloat.is_nan.
  rewrite !FloatAxioms.ltb_spec, FloatAxioms.eqb_spec, FloatAxioms.abs_spec,
    SF_half, SF_neg_half, SF_tenth, SF_zero.
  unfold SFltb, SFeqb.
  destruct (Prim2SF x) as [s|s| |s m e]; cbn [SFabs SFcompare].
  - destruct s; discriminate.
  - destruct s; [|discriminate]. auto.
  - discriminate.
  - destruct s; [|discriminate].
    intros H. rewrite Pos.compare_cont_refl, Z.compare_refl. cbn [negb CompOpp].
    repeat split. sf_cases.
Qed.

(** X8.  With the default thresholds the two labels of a percentage never
    contradict each other: Increasing comes with UPWARD, Declining with
    DOWNWARD, N/A with NO ADJUSTMENT, and NO ADJUSTMENT only with Stable or
    N/A. *)
Theorem labels_agree (adj_pct : float) :
  let category := categorize_adjustment adj_pct category_threshold in
  let direction := adjustment_direction adj_pct direction_threshold in
  (category = "Increasing"%string -> direction = "UPWARD"%string)
  /\ (category = "Declining"%string -> direction = "DOWNWARD"%string)
  /\ (category = "N/A"%string -> direction = "NO ADJUSTMENT"%string)
  /\ (direction = "NO ADJUSTMENT"%string ->
      category = "Stable"%string \/ category = "N/A"%string).
Proof.
  cbv zeta. unfold categorize_adjustment, adjustment_direction,
    category_threshold, direction_threshold.
  change (PrimFloat.opp 0.5%float) with (- 0.5)%float.
  destruct (isna adj_pct) eqn:Hn; cbn [orb].
  - repeat split; intros; try discriminate; auto.
  - destruct (0.5 <? adj_pct)%float eqn:H1.
    + destruct (above_half _ H1) as (Ha & Hp & _). rewrite Ha, Hp.
      repeat split; intros; try discriminate; auto.
    + destruct (adj_pct <? - 0.5)%float eqn:H2.
      * destruct (below_neg_half _ H2) as (Ha & Hp & _). rewrite Ha, Hp.
        repeat split; intros; try discriminate; auto.
      * repeat split; intros; try discriminate; auto.
Qed.

(** X9.  With a threshold of zero days (or less) the adjustment is applied
    to every comparable, also one under contract on the effective date, and
    the row reports the computed percentage and dollar amount. *)
Theorem zero_threshold_applies_to_all (index_df : list index_row)
  (math_col : index_col) (eff_date : date) (no_adj_days : Z) (c : comparable) :
  no_adj_days <= 0 ->
  let a := adjust_comparable index_df math_col eff_date no_adj_days c in
  AppliedAdj a = true
  /\ MktAdjPct a = computed_pct (Index_Effective a) (Index_Contract a)
  /\ MktAdjDollar a = computed_dollar (comp_SoldPrice c) (MktAdjPct a).
Proof.
  intros H. cbv zeta. unfold adjust_comparable.
  cbn [AppliedAdj MktAdjPct MktAdjDollar Index_Effective Index_Contract].
  assert (E : (no_adj_days <=? days_between (comp_ContractDate c) eff_date) = true).
  { apply Z.leb_le. unfold days_between. lia. }
  rewrite E. repeat split.
Qed.


(** ** Distribution rule *)

Lemma Pos_compare_cont_Eq (m1 m2 : positive) :
  Pos.compare_cont Eq m1 m2 = Eq -> m1 = m2.
Proof. apply Pos.compare_eq. Qed.

Lemma SFcompare_Eq_finite (s1 s2 : bool) (m1 m2 : positive) (e1 e2 : Z) :
  SFcompare (S754_finite s1 m1 e1) (S754_finite s2 m2 e2) = Some Eq ->
  s1 = s2 /\ m1 = m2 /\ e1 = e2.
Proof.
  cbn [SFcompare]. destruct s1, s2; try discriminate;
    destruct (Z.compare_spec e1 e2) as [E|E|E]; try discriminate;
    intros H; injection H as H.
  - destruct (Pos.compare_cont Eq m1 m2) eqn:Em; try discriminate.
    apply Pos.compare_eq in Em. auto.
  - apply Pos.compare_eq in H. auto.
Qed.

Lemma SFsub_same (x y p : spec_float) :
  sf_same_or_nan x p = true -> sf_same_or_nan y p = true ->
  sf_zero_or_nan (SF64sub x y) = true.
Proof.
  intros Hx Hy.
  destruct x as [sx|sx| |sx mx ex], y as [sy|sy| |sy my ey], p as [sp|sp| |sp mp ep];
    try reflexivity; try discriminate;
    try (destruct sx, sy; reflexivity);
    try (destruct sx; reflexivity); try (destruct sy; reflexivity);
    try (destruct sx, sp; discriminate); try (destruct sy, sp; discriminate);
    try (destruct sx, sy, sp; try discriminate; reflexivity).
  cbn [sf_same_or_nan] in Hx, Hy.
  destruct (SFcompare (S754_finite sx mx ex) (S754_finite sp mp ep)) as [[| |]|] eqn:E1;
    try discriminate.
  destruct (SFcompare (S754_finite sy my ey) (S754_finite sp mp ep)) as [[| |]|] eqn:E2;
    try discriminate.
  apply SFcompare_Eq_finite in E1, E2.
  destruct E1 as (-> & -> & ->), E2 as (-> & -> & ->).
  unfold SF64sub, SFsub. rewrite Z.sub_diag. reflexivity.
Qed.

Lemma SFmul_zero_or_nan_l (d t : spec_float) :
  sf_zero_or_nan d = true -> sf_zero_or_nan (SF64mul d t) = true.
Proof. destruct d, t; try discriminate; reflexivity. Qed.

Lemma SFmul_zero_or_nan_r (k d : spec_float) :
  sf_zero_or_nan d = true -> sf_zero_or_nan (SF64mul k d) = true.
Proof. destruct k, d; try discriminate; reflexivity. Qed.

Lemma SFadd_same (x z p : spec_float) :
  sf_same_or_nan x p = true -> sf_zero_or_nan z = true ->
  sf_same_or_nan (SF64add x z) p = true.
Proof.
  intros Hx Hz.
  destruct x as [sx|sx| |sx mx ex], z as [sz|sz| |sz mz ez]; try discriminate;
    try reflexivity; try exact Hx.
  all: destruct p as [sp|sp| |sp mp ep]; try discriminate.
  all: try (destruct sx, sz; reflexivity).
  all: destruct sp; discriminate.
Qed.

Lemma SFsub_same_zero (x z p : spec_float) :
  sf_same_or_nan x p = true -> sf_zero_or_nan z = true ->
  sf_same_or_nan (SF64sub x z) p = true.
Proof.
  intros Hx Hz.
  destruct x as [sx|sx| |sx mx ex], z as [sz|sz| |sz mz ez]; try discriminate;
    try reflexivity; try exact Hx.
  all: destruct p as [sp|sp| |sp mp ep]; try discriminate.
  all: try (destruct sx, sz; reflexivity).
  all: destruct sp; discriminate.
Qed.

Lemma SFcompare_refl (p : spec_float) :
  p <> S754_nan -> SFcompare p p = Some Eq.
Proof.
  destruct p as [s|s| |s m e]; try congruence; intros _; cbn [SFcompare];
    try (destruct s; reflexivity).
  rewrite Z.compare_refl, Pos.compare_cont_refl. destruct s; reflexivity.
Qed.

Lemma SFltb_same (x p : spec_float) :
  sf_same_or_nan x p = true -> SFltb p x = false /\ SFltb x p = false.
Proof.
  intros Hx. unfold SFltb.
  destruct x as [sx|sx| |sx mx ex]; cbn [sf_same_or_nan] in Hx.
  - destruct p as [sp|sp| |sp mp ep]; try discriminate; try (destruct sp; discriminate).
    split; reflexivity.
  - destruct p as [sp|sp| |sp mp ep]; try discriminate; try (destruct sx; discriminate).
    destruct sx, sp; try discriminate; split; reflexivity.
  - destruct p; split; reflexivity.
  - destruct p as [sp|sp| |sp mp ep]; try discriminate;
      try (destruct sx; discriminate); try (destruct sp; discriminate).
    destruct (SFcompare (S754_finite sx mx ex) (S754_finite sp mp ep)) as [[| |]|] eqn:E;
      try discriminate.
    pose proof E as E'. apply SFcompare_Eq_finite in E'. destruct E' as (-> & -> & ->).
    rewrite E. split; reflexivity.
Qed.

Lemma isna_SF (x : float) : isna x = true <-> Prim2SF x = S754_nan.
Proof.
  unfold isna, is_nan. rewrite eqb_spec. unfold SFeqb. split.
  - intros H. destruct (Prim2SF x) as [s|s| |s m e] eqn:E; try reflexivity;
      rewrite SFcompare_refl in H by discriminate; discriminate.
  - intros ->. reflexivity.
Qed.

Lemma not_isna_same (p : float) :
  isna p = false -> sf_same_or_nan (Prim2SF p) (Prim2SF p) = true.
Proof.
  intros H. assert (Hn : Prim2SF p <> S754_nan).
  { intros E. apply isna_SF in E. congruence. }
  unfold sf_same_or_nan. rewrite (SFcompare_refl _ Hn).
  destruct (Prim2SF p); reflexivity.
Qed.

(** Interpolating between two equal values gives that value, or NaN. *)
Lemma lerp_same (p t : float) :
  isna p = false -> sf_same_or_nan (Prim2SF (lerp p p t)) (Prim2SF p) = true.
Proof.
  intros H. pose proof (not_isna_same p H) as Hp.
  assert (Hd : sf_zero_or_nan (Prim2SF (p - p)) = true).
  { rewrite sub_spec. apply (SFsub_same _ _ (Prim2SF p)); exact Hp. }
  unfold lerp. destruct (0.5 <=? t)%float.
  - rewrite sub_spec. apply SFsub_same_zero; [exact Hp|].
    rewrite mul_spec. apply SFmul_zero_or_nan_l, Hd.
  - rewrite add_spec. apply SFadd_same; [exact Hp|].
    rewrite mul_spec. apply SFmul_zero_or_nan_l, Hd.
Qed.

Lemma insert_float_repeat (p : float) (n : nat) :
  isna p = false -> insert_float p (repeat p n) = p :: repeat p n.
Proof.
  intros H. destruct n as [|n]; [reflexivity|]. cbn [repeat insert_float].
  rewrite leb_spec. unfold SFleb. rewrite SFcompare_refl; [reflexivity|].
  intros E. apply isna_SF in E. congruence.
Qed.

Lemma order_statistics_repeat (p : float) (n : nat) :
  isna p = false -> order_statistics (repeat p n) = repeat p n.
Proof.
  intros H. unfold order_statistics.
  assert (E : filter (fun x => negb (isna x)) (repeat p n) = repeat p n).
  { induction n as [|n IH]; [reflexivity|]. cbn [repeat filter].
    rewrite H. cbn [negb]. rewrite IH. reflexivity. }
  rewrite E. clear E. induction n as [|n IH]; [reflexivity|].
  cbn [repeat sort_floats fold_right]. fold (sort_floats (repeat p n)).
  rewrite IH. apply insert_float_repeat, H.
Qed.

Lemma nth_repeat_lt (p : float) (n i : nat) :
  (i < n)%nat -> nth i (repeat p n) nan = p.
Proof.
  revert i. induction n as [|n IH]; intros [|i] H; cbn [repeat nth]; try lia;
    [reflexivity|]. apply IH. lia.
Qed.

Lemma quantile_repeat (p : float) (n num : nat) :
  isna p = false -> (0 < n)%nat -> (num <= 4)%nat ->
  quantile (repeat p n) num = lerp p p (quantile_gamma (repeat p n) num).
Proof.
  intros H Hn Hnum. unfold quantile, quantile_previous, quantile_next.
  rewrite (order_statistics_repeat p n H), repeat_length.
  destruct n as [|n]; [lia|]. cbn [repeat].
  change (p :: repeat p n) with (repeat p (S n)).
  rewrite !nth_repeat_lt; [reflexivity| |].
  - apply Nat.min_lt_iff. right. lia.
  - apply Nat.Div0.div_lt_upper_bound. nia.
Qed.

(** X10.  A price list whose values are all equal, the empty list and a
    single price included, gets no IQR flag, for every multiplier (a NaN or
    infinite price or multiplier included). *)
Theorem equal_prices_never_flagged (p k : float) (n : nat) :
  compute_iqr_flags_cached (repeat p n) k = repeat false n.
Proof.
  unfold compute_iqr_flags_cached. cbv zeta.
  set (lo := (_ - _)%float). set (hi := (_ + _)%float).
  assert (E : (p <? lo)%float || (hi <? p)%float = false).
  { destruct (isna p) eqn:Hp.
    - apply isna_SF in Hp. rewrite !ltb_spec, Hp. unfold SFltb. cbn [SFcompare].
      destruct (Prim2SF hi); reflexivity.
    - destruct n as [|n].
      { rewrite !ltb_spec. subst lo hi. unfold quantile. cbn [repeat order_statistics filter sort_floats fold_right].
        rewrite !sub_spec, add_spec, mul_spec, sub_spec.
        change (Prim2SF nan) with S754_nan. unfold SFltb.
        destruct (Prim2SF k), (Prim2SF p); reflexivity. }
      assert (Q1 := lerp_same p (quantile_gamma (repeat p (S n)) 1) Hp).
      assert (Q3 := lerp_same p (quantile_gamma (repeat p (S n)) 3) Hp).
      rewrite <- (quantile_repeat p (S n) 1 Hp) in Q1 by lia.
      rewrite <- (quantile_repeat p (S n) 3 Hp) in Q3 by lia.
      assert (Hk : sf_zero_or_nan
                     (Prim2SF (k * (quantile (repeat p (S n)) 3
                                    - quantile (repeat p (S n)) 1))) = true).
      { rewrite mul_spec. apply SFmul_zero_or_nan_r.
        rewrite sub_spec. apply (SFsub_same _ _ (Prim2SF p)); assumption. }
      assert (Hlo : sf_same_or_nan (Prim2SF lo) (Prim2SF p) = true).
      { subst lo. rewrite sub_spec. apply SFsub_same_zero; assumption. }
      assert (Hhi : sf_same_or_nan (Prim2SF hi) (Prim2SF p) = true).
      { subst hi. rewrite add_spec. apply SFadd_same; assumption. }
      rewrite !ltb_spec.
      destruct (SFltb_same _ _ Hlo) as [-> _], (SFltb_same _ _ Hhi) as [_ ->].
      reflexivity. }
  clearbody lo hi. induction n as [|n IH]; [reflexivity|].
  cbn [repeat map]. rewrite E, IH. reflexivity.
Qed.

(** ** Regression rule *)

Lemma float_of_nat_plus (n : nat) : sf_plus (Prim2SF (float_of_Z (Z.of_nat n))) = true.
Proof.
  unfold float_of_Z. destruct (Z.of_nat n) as [|p|p] eqn:E; [reflexivity| |lia].
  rewrite of_uint63_spec.
  pose proof (Uint63.to_Z_bounded (Uint63.of_Z (Z.pos p))) as [H _].
  destruct (Uint63.to_Z (Uint63.of_Z (Z.pos p))) as [|q|q]; [reflexivity| |lia].
  cbn [binary_normalize]. unfold binary_round.
  destruct (shl_align q 0 _) as [mz ez].
  pose proof (binary_round_aux_sign false (Z.pos mz) ez loc_Exact) as Hs.
  destruct (binary_round_aux prec emax false (Z.pos mz) ez loc_Exact);
    try reflexivity; rewrite Hs; reflexivity.
Qed.

Lemma SFdiv_plus (x y : spec_float) :
  sf_plus x = true -> sf_plus y = true -> sf_plus (SF64div x y) = true.
Proof.
  intros Hx Hy. unfold SF64div, SFdiv.
  destruct x as [sx|sx| |sx mx ex], y as [sy|sy| |sy my ey]; try reflexivity;
    cbn [sf_plus] in *; apply negb_true_iff in Hx, Hy; subst; try reflexivity.
  destruct (SFdiv_core_binary prec emax (Z.pos mx) ex (Z.pos my) ey) as [[mz ez] lz].
  pose proof (binary_round_aux_sign (xorb false false) mz ez lz) as Hs.
  destruct (binary_round_aux prec emax (xorb false false) mz ez lz);
    try reflexivity; rewrite Hs; reflexivity.
Qed.

Lemma SFdiv_zero_or_nan (x y : spec_float) :
  sf_zero_or_nan x = true -> sf_zero_or_nan (SF64div x y) = true.
Proof. destruct x, y; try discriminate; reflexivity. Qed.

Lemma SFltb_plus_zero (t x : spec_float) :
  sf_plus t = true -> sf_zero_or_nan x = true -> SFltb t x = false.
Proof.
  intros Ht Hx. unfold SFltb.
  destruct x as [sx|sx| |sx mx ex]; try discriminate;
    destruct t as [st|st| |st mt et]; try reflexivity;
    cbn [sf_plus] in Ht; apply negb_true_iff in Ht; subst; reflexivity.
Qed.

Lemma zero_is_zero_or_nan (x : spec_float) :
  sf_is_zero x = true -> sf_zero_or_nan x = true.
Proof. destruct x; try discriminate; reflexivity. Qed.

(** X14.  A row whose computed residual is zero is never flagged by the
    regression rule, whatever the other rows are. *)
Theorem zero_residual_never_flagged (np_log : float -> float)
  (np_linalg_inv : mat2 -> option mat2) (np_linalg_pinv : mat2 -> mat2)
  (df : list (sale float)) (i : nat) (s : date * float) (r : diag_row) :
  let out := dropna df in
  nth_error out i = Some s ->
  nth_error (cooks_distance_time_regression np_log np_linalg_inv np_linalg_pinv df) i
  = Some r ->
  (row_resid np_log np_linalg_inv np_linalg_pinv out s =? 0)%float = true ->
  HighLeverage r = false /\ HighCooksD r = false.
Proof.
  intros out Hs Hr Hz.
  destruct (Nat.lt_ge_cases (length out) 6) as [Hn|Hn].
  - rewrite (cooks_few_rows np_log np_linalg_inv np_linalg_pinv df Hn) in Hr.
    apply nth_error_In, in_map_iff in Hr. destruct Hr as (x & <- & _).
    split; reflexivity.
  - rewrite (cooks_rows np_log np_linalg_inv np_linalg_pinv df Hn) in Hr.
    fold out in Hr. rewrite nth_error_map, Hs in Hr. injection Hr as <-.
    cbn [HighLeverage HighCooksD].
    apply eqb_zero_true, zero_is_zero_or_nan in Hz.
    set (z := row_resid np_log np_linalg_inv np_linalg_pinv out s) in *.
    split.
    + rewrite ltb_spec. apply SFltb_plus_zero; [reflexivity|].
      rewrite div_spec. apply SFdiv_zero_or_nan. rewrite abs_spec.
      destruct (Prim2SF z); try discriminate; reflexivity.
    + rewrite ltb_spec. apply SFltb_plus_zero.
      * unfold reg_cook_thresh. rewrite div_spec.
        apply SFdiv_plus; [reflexivity|apply float_of_nat_plus].
      * unfold row_cooks, cooks_entry. fold z.
        rewrite mul_spec. apply SFmul_zero_or_nan_l.
        rewrite div_spec. apply SFdiv_zero_or_nan.
        rewrite mul_spec. apply SFmul_zero_or_nan_l, Hz.
Qed.

(** ** The diagnostics table *)

Lemma flag_reason_injective (a b c a' b' c' : bool) :
  flag_reason a b c = flag_reason a' b' c' -> a = a' /\ b = b' /\ c = c'.
Proof.
  destruct a, b, c, a', b', c'; intros H; try (repeat split; reflexivity);
    vm_compute in H; discriminate.
Qed.

Lemma flag_reason_empty (a b c : bool) :
  flag_reason a b c = ""%string <-> a || b || c = false.
Proof.
  destruct a, b, c; vm_compute; split; intros H; try reflexivity; discriminate.
Qed.

(** [dropna] keeps the rows that have a price. *)
Lemma dropna_with_price {A : Type} (l : list (date * float * A)) :
  dropna (map (fun ri => mksale (Some (fst (fst ri))) (snd (fst ri))) l)
  = map fst (filter (fun ri => negb (isna (snd (fst ri)))) l).
Proof.
  induction l as [|[[d p] i] t IH]; [reflexivity|]. cbn [map dropna ContractDate SoldPrice fst snd filter].
  destruct (isna p); cbn [negb]; [exact IH|]. cbn [map fst]. rewrite IH. reflexivity.
Qed.

Lemma filter_idempotent {A : Type} (f : A -> bool) (l : list A) :
  filter f (filter f l) = filter f l.
Proof.
  induction l as [|x t IH]; [reflexivity|]. cbn [filter].
  destruct (f x) eqn:E; [cbn [filter]; rewrite E, IH|]; auto.
Qed.

Lemma filter_all {A : Type} (f : A -> bool) (l : list A) :
  forallb f l = true -> filter f l = l.
Proof.
  induction l as [|x t IH]; [reflexivity|]. cbn [forallb filter].
  intros H. apply andb_prop in H. destruct H as [-> H]. rewrite (IH H). reflexivity.
Qed.

Lemma map_combine_l {A B C : Type} (g : A -> C) (l1 : list A) (l2 : list B) :
  length l2 = length l1 ->
  map (fun ab => g (fst ab)) (combine l1 l2) = map g l1.
Proof.
  revert l2. induction l1 as [|a t IH]; intros [|b l2] H; try discriminate;
    [reflexivity|]. cbn [combine map fst]. injection H as H. rewrite (IH l2 H).
  reflexivity.
Qed.

Lemma map_combine_r {A B C : Type} (g : B -> C) (l1 : list A) (l2 : list B) :
  length l2 = length l1 ->
  map (fun ab => g (snd ab)) (combine l1 l2) = map g l2.
Proof.
  revert l2. induction l1 as [|a t IH]; intros [|b l2] H; try discriminate;
    [reflexivity|]. cbn [combine map snd]. injection H as H. rewrite (IH l2 H).
  reflexivity.
Qed.

Lemma iqr_flags_length (l : list float) (k : float) :
  length (compute_iqr_flags_cached l k) = length l.
Proof. unfold compute_iqr_flags_cached. apply length_map. Qed.

Section DiagnosticsTable.

Variable np_log : float -> float.
Variable np_linalg_inv : mat2 -> option mat2.
Variable np_linalg_pinv : mat2 -> mat2.

Abbreviation diagnostics := (run_diagnostics np_log np_linalg_inv np_linalg_pinv).

Lemma run_diagnostics_rows (df_f : list (date * float)) (use_iqr : bool)
  (k : float) (use_cooks : bool) (row : flagged_row) :
  In row (diagnostics df_f use_iqr k use_cooks) ->
  Flagged row = IQR_Outlier row || Row_HighLeverage row || Row_HighCooksD row
  /\ FlagReason row
     = flag_reason (IQR_Outlier row) (Row_HighLeverage row) (Row_HighCooksD row).
Proof.
  unfold run_diagnostics. rewrite in_map_iff.
  intros ([[r i] [hl hc]] & <- & _). split; reflexivity.
Qed.

(** X17.  The reason shown for a record is empty exactly when the record is
    not flagged, and two records with the same reason have the same three
    flags. *)
Theorem flag_reason_records_the_flags (df_f df_f' : list (date * float))
  (use_iqr use_iqr' : bool) (k k' : float) (use_cooks use_cooks' : bool)
  (row row' : flagged_row) :
  In row (diagnostics df_f use_iqr k use_cooks) ->
  In row' (diagnostics df_f' use_iqr' k' use_cooks') ->
  (FlagReason row = ""%string <-> Flagged row = false)
  /\ (FlagReason row = FlagReason row' ->
      IQR_Outlier row = IQR_Outlier row'
      /\ Row_HighLeverage row = Row_HighLeverage row'
      /\ Row_HighCooksD row = Row_HighCooksD row'
      /\ Flagged row = Flagged row').
Proof.
  intros H H'.
  destruct (run_diagnostics_rows _ _ _ _ _ H) as [F R].
  destruct (run_diagnostics_rows _ _ _ _ _ H') as [F' R'].
  split.
  - rewrite R, F. apply flag_reason_empty.
  - rewrite R, R'. intros E. apply flag_reason_injective in E.
    destruct E as (E1 & E2 & E3). rewrite F, F', E1, E2, E3. auto.
Qed.

(** X18.  The diagnostics table has one row per record that has a price, in
    the order of the table and with the date, the price and the IQR flag of
    the record: the flag computed on the whole price column when that rule
    is switched on, and false otherwise.  Records without a price are left
    out by the regression step only; a cleaned table has none, so it keeps
    one row per record. *)
Theorem diagnostics_keep_every_record (df_f : list (date * float)) (use_iqr : bool)
  (k : float) (use_cooks : bool) :
  let rows := diagnostics df_f use_iqr k use_cooks in
  let iqr := if use_iqr then compute_iqr_flags_cached (map snd df_f) k
             else map (fun _ => false) df_f in
  let kept := fun r : date * float => negb use_cooks || negb (isna (snd r)) in
  map (fun row => (flag_date row, flag_price row, IQR_Outlier row)) rows
  = filter (fun ri => kept (fst ri)) (combine df_f iqr)
  /\ (forallb kept df_f = true ->
      map (fun row => (flag_date row, flag_price row)) rows = df_f
      /\ map IQR_Outlier rows = iqr).
Proof.
  intros rows iqr kept.
  assert (Hi : length iqr = length df_f).
  { subst iqr. destruct use_iqr; [rewrite iqr_flags_length|]; apply length_map. }
  assert (E : map (fun row => (flag_date row, flag_price row, IQR_Outlier row)) rows
              = filter (fun ri => kept (fst ri)) (combine df_f iqr)).
  { subst rows. unfold run_diagnostics. fold iqr.
    set (table := combine df_f iqr).
    set (tk := if use_cooks then filter (fun ri => negb (isna (snd (fst ri)))) table
               else table).
    set (reg := if use_cooks then _ else _).
    assert (Hr : length reg = length tk).
    { subst reg tk. destruct use_cooks; [|apply length_map].
      rewrite length_map, cooks_length, dropna_with_price, filter_idempotent.
      apply length_map. }
    assert (Hk : tk = filter (fun ri => kept (fst ri)) table).
    { subst tk kept. destruct use_cooks; cbn [negb orb].
      - reflexivity.
      - symmetry. apply filter_all. apply forallb_forall. reflexivity. }
    rewrite <- Hk. rewrite map_map.
    rewrite (map_ext _ (fun ab => (fun ri : date * float * bool => ri) (fst ab))).
    - rewrite (map_combine_l (fun ri => ri) tk reg Hr). apply map_id.
    - intros [[[d p] i] [hl hc]]. reflexivity. }
  split; [exact E|].
  intros Hall.
  assert (Ef : filter (fun ri => kept (fst ri)) (combine df_f iqr) = combine df_f iqr).
  { apply filter_all. apply forallb_forall. intros [r i] Hin.
    apply in_combine_l in Hin. cbn [fst].
    rewrite forallb_forall in Hall. apply Hall, Hin. }
  rewrite Ef in E. split.
  - transitivity (map fst (map (fun row => (flag_date row, flag_price row,
                                             IQR_Outlier row)) rows)).
    + rewrite map_map. reflexivity.
    + rewrite E. rewrite <- (map_id df_f) at 2.
      apply (map_combine_l (fun r => r) df_f iqr Hi).
  - transitivity (map snd (map (fun row => (flag_date row, flag_price row,
                                             IQR_Outlier row)) rows)).
    + rewrite map_map. reflexivity.
    + rewrite E. rewrite <- (map_id iqr) at 2.
      apply (map_combine_r (fun i => i) df_f iqr Hi).
Qed.

End DiagnosticsTable.

(** ** Report history *)

Lemma opt_string_eqb_eq (a b : option string) : opt_string_eqb a b = true <-> a = b.
Proof.
  destruct a as [x|], b as [y|]; simpl; try (split; [discriminate|congruence]).
  - rewrite String.eqb_eq. split; congruence.
  - split; reflexivity.
Qed.

Section HistoryFacts.

Context {payload : Type}.
Implicit Types (history : list (report payload)) (report_data r : report payload).

Lemma same_report_key report_data r :
  same_report report_data r = true <-> report_key r = report_key report_data.
Proof.
  unfold same_report, report_key. rewrite andb_true_iff, !opt_string_eqb_eq.
  split; [intros [-> ->]; reflexivity|intros E; injection E; auto].
Qed.

Lemma existing_idx_some report_data history i :
  existing_idx report_data history = Some i ->
  (i < length history)%nat
  /\ exists r, nth_error history i = Some r /\ report_key r = report_key report_data.
Proof.
  revert i. induction history as [|h t IH]; intros i; simpl; [discriminate|].
  destruct (same_report report_data h) eqn:E.
  - intros [= <-]. split; [lia|]. exists h. split; [reflexivity|].
    apply same_report_key, E.
  - destruct (existing_idx report_data t) as [j|]; [|discriminate].
    intros [= <-]. destruct (IH j eq_refl) as (Hj & r & Hr & Hk).
    split; [lia|]. exists r. auto.
Qed.

Lemma existing_idx_none report_data history :
  existing_idx report_data history = None ->
  ~ In (report_key report_data) (map report_key history).
Proof.
  induction history as [|h t IH]; simpl; [auto|].
  destruct (same_report report_data h) eqn:E; [discriminate|].
  destruct (existing_idx report_data t); [discriminate|]. intros _ [Hk|Hin].
  - apply same_report_key in Hk. congruence.
  - apply IH; auto.
Qed.

Lemma set_nth_nth_error {A : Type} (i : nat) (v : A) (l : list A) :
  (i < length l)%nat ->
  nth_error (set_nth i v l) i = Some v
  /\ forall j, j <> i -> nth_error (set_nth i v l) j = nth_error l j.
Proof.
  revert i. induction l as [|h t IH]; intros [|i] Hi; simpl in *; try lia.
  - split; [reflexivity|]. intros [|j] Hj; [congruence|reflexivity].
  - destruct (IH i ltac:(lia)) as [H1 H2]. split; [exact H1|].
    intros [|j] Hj; [reflexivity|]. simpl. apply H2. congruence.
Qed.

Lemma set_nth_same_key history i report_data r :
  nth_error history i = Some r -> report_key r = report_key report_data ->
  map report_key (set_nth i report_data history) = map report_key history.
Proof.
  revert i. induction history as [|h t IH]; intros [|i] Hn E; simpl in *;
    try discriminate.
  - injection Hn as ->. rewrite E. reflexivity.
  - rewrite (IH i Hn E). reflexivity.
Qed.

Lemma In_firstn {A : Type} (x : A) (n : nat) (l : list A) :
  In x (firstn n l) -> In x l.
Proof.
  revert n. induction l as [|h t IH]; intros [|n]; simpl; try tauto.
  intros [E|Hin]; [now left|right; eapply IH, Hin].
Qed.

Lemma NoDup_firstn {A : Type} (n : nat) (l : list A) : NoDup l -> NoDup (firstn n l).
Proof.
  intros H. revert n. induction H as [|h t Hnotin Hnd IH]; intros [|n]; simpl;
    try constructor; auto.
  intros Hin. apply Hnotin. eapply In_firstn, Hin.
Qed.

(** X19.  After a save the history has at most 50 entries, and when it had
    at most 50 before, it holds the saved report. *)
Theorem saved_report_is_kept history report_data :
  (length (save_report_to_history history report_data) <= 50)%nat
  /\ ((length history <= 50)%nat ->
      In report_data (save_report_to_history history report_data)).
Proof.
  unfold save_report_to_history. split.
  - rewrite length_firstn. lia.
  - intros Hlen. destruct (existing_idx report_data history) as [i|] eqn:E.
    + destruct (existing_idx_some _ _ _ E) as (Hi & _).
      rewrite firstn_all2 by (rewrite set_nth_length; lia).
      destruct (set_nth_nth_error i report_data history Hi) as [H1 _].
      eapply nth_error_In, H1.
    + destruct history as [|h t]; simpl; auto.
Qed.

(** X20.  A history with one entry per subject address and effective date
    still has one entry per address and date after a save. *)
Theorem history_keys_stay_unique history report_data :
  NoDup (map report_key history) ->
  NoDup (map report_key (save_report_to_history history report_data)).
Proof.
  intros Hnd. unfold save_report_to_history.
  rewrite <- firstn_map. apply NoDup_firstn.
  destruct (existing_idx report_data history) as [i|] eqn:E.
  - destruct (existing_idx_some _ _ _ E) as (_ & r & Hr & Hk).
    rewrite (set_nth_same_key _ _ _ _ Hr Hk). exact Hnd.
  - simpl. constructor; [apply existing_idx_none, E|exact Hnd].
Qed.

(** X21.  Saving a report for an address and date the history already has
    replaces the first such entry where it stands: the length and every
    other position are unchanged. *)
Theorem resaved_report_replaces_in_place history report_data i :
  (length history <= 50)%nat ->
  existing_idx report_data history = Some i ->
  length (save_report_to_history history report_data) = length history
  /\ nth_error (save_report_to_history history report_data) i = Some report_data
  /\ (forall j, j <> i ->
        nth_error (save_report_to_history history report_data) j
        = nth_error history j)
  /\ (exists old, nth_error history i = Some old
                  /\ report_key old = report_key report_data)
  /\ (forall j r, (j < i)%nat -> nth_error history j = Some r ->
                  report_key r <> report_key report_data).
Proof.
  intros Hlen E. unfold save_report_to_history. rewrite E.
  destruct (existing_idx_some _ _ _ E) as (Hi & old & Hold & Hk).
  rewrite firstn_all2 by (rewrite set_nth_length; lia).
  destruct (set_nth_nth_error i report_data history Hi) as [H1 H2].
  split; [apply set_nth_length|]. split; [exact H1|]. split; [exact H2|].
  split; [exists old; auto|].
  clear - E. revert i E. induction history as [|h t IH]; intros i; simpl;
    [discriminate|].
  destruct (same_report report_data h) eqn:Es.
  - intros [= <-] j r Hj. lia.
  - destruct (existing_idx report_data t) as [k|] eqn:Ek; [|discriminate].
    intros [= <-] [|j] r Hj; simpl.
    + intros [= <-] Hkey. apply same_report_key in Hkey. congruence.
    + apply (IH k eq_refl). lia.
Qed.

(** X22.  Deleting by id removes every entry with that id and keeps every
    other entry once, at its place between what is kept before and after
    it; a history that does not hold the id comes back unchanged, a second
    deletion changes nothing, and the history never grows. *)
Theorem deleted_report_is_gone history (rid : string) :
  (forall r, In r (delete_report_from_history history rid) <->
             In r history /\ report_id r <> Some rid)
  /\ (forall before r after, history = before ++ r :: after ->
        delete_report_from_history history rid
        = delete_report_from_history before rid
          ++ (if opt_string_eqb (report_id r) (Some rid) then [] else [r])
          ++ delete_report_from_history after rid)
  /\ ((forall r, In r history -> report_id r <> Some rid) ->
      delete_report_from_history history rid = history)
  /\ delete_report_from_history (delete_report_from_history history rid) rid
     = delete_report_from_history history rid
  /\ (length (delete_report_from_history history rid) <= length history)%nat.
Proof.
  unfold delete_report_from_history. split; [|split; [|split; [|split]]].
  - intros r. rewrite filter_In, negb_true_iff.
    split; intros [H1 H2]; split; auto.
    + intros E. apply opt_string_eqb_eq in E. congruence.
    + destruct (opt_string_eqb (report_id r) (Some rid)) eqn:E; [|reflexivity].
      apply opt_string_eqb_eq in E. contradiction.
  - intros before r after ->. rewrite filter_app. cbn [filter].
    destruct (opt_string_eqb (report_id r) (Some rid)); reflexivity.
  - intros Hno. induction history as [|h t IH]; [reflexivity|]. cbn [filter].
    destruct (opt_string_eqb (report_id h) (Some rid)) eqn:E.
    + apply opt_string_eqb_eq in E. exfalso. apply (Hno h); [left; reflexivity|exact E].
    + cbn [negb]. rewrite IH; [reflexivity|].
      intros r Hr. apply Hno. right. exact Hr.
  - induction history as [|h t IH]; [reflexivity|]. simpl.
    destruct (negb (opt_string_eqb (report_id h) (Some rid))) eqn:E; simpl;
      [rewrite E, IH; reflexivity|exact IH].
  - apply List.filter_length_le.
Qed.

(** X23.  A report saved under a new address and date and then deleted by
    its id leaves the history as it was, when the history held fewer than 50
    entries and none with that id. *)
Theorem save_then_delete_restores history report_data (rid : string) :
  existing_idx report_data history = None ->
  (length history < 50)%nat ->
  report_id report_data = Some rid ->
  (forall r, In r history -> report_id r <> Some rid) ->
  delete_report_from_history (save_report_to_history history report_data) rid
  = history.
Proof.
  intros Hnew Hlen Hid Hfresh. unfold save_report_to_history. rewrite Hnew.
  rewrite firstn_all2 by (cbn [length]; lia).
  unfold delete_report_from_history. cbn [filter]. rewrite Hid.
  assert (E : opt_string_eqb (Some rid) (Some rid) = true)
    by (apply opt_string_eqb_eq; reflexivity).
  rewrite E. cbn [negb].
  induction history as [|h t IH]; [reflexivity|]. cbn [filter].
  destruct (opt_string_eqb (report_id h) (Some rid)) eqn:Eh.
  - apply opt_string_eqb_eq in Eh. exfalso. apply (Hfresh h); [left; reflexivity|exact Eh].
  - cbn [negb]. rewrite IH; [reflexivity| | |].
    + cbn [existing_idx] in Hnew. destruct (same_report report_data h); [discriminate|].
      destruct (existing_idx report_data t); [discriminate|reflexivity].
    + cbn [length] in Hlen. lia.
    + intros r Hr. apply Hfresh. right. exact Hr.
Qed.

End HistoryFacts.

(** ** Instances *)

Example three_sales_table :
  build_monthly_index_price three_sales 2
  = [mkbucket (mkdate 2024 1 1) 2 305000%float false 1.00%float;
     mkbucket (mkdate 2024 2 1) 1 320000%float true (320000 / 305000)%float].
Proof. vm_compute. reflexivity. Qed.

Lemma median_price_from_sales_witness :
  let b := mkbucket (mkdate 2024 1 1) 2 305000%float false 1.00%float in
  In b (build_monthly_index_price three_sales 2)
  /\ let in_month := fun s : sale float =>
       In s three_sales /\ isna (SoldPrice s) = false
       /\ exists d, ContractDate s = Some d /\ month_start d = Month b in
     if Z.odd (SalesCount b)
     then exists s, in_month s /\ MedianPrice b = SoldPrice s
     else exists s1 s2, in_month s1 /\ in_month s2
            /\ MedianPrice b = ((SoldPrice s1 + SoldPrice s2) / 2)%float.
Proof.
  intros b.
  assert (H : In b (build_monthly_index_price three_sales 2)).
  { rewrite three_sales_table. left. reflexivity. }
  split; [exact H|].
  exact (median_price_from_sales three_sales 2 b H).
Defined.

Lemma zero_threshold_applies_to_all_witness :
  0 <= 0
  /\ let a := adjust_comparable scenario_B_index Col_Smoothed (mkdate 2024 5 9) 0
                                (mkcomp "7 Oak Ave" (mkdate 2024 5 9) 400000%float) in
     AppliedAdj a = true
     /\ MktAdjPct a = computed_pct (Index_Effective a) (Index_Contract a)
     /\ MktAdjDollar a = computed_dollar 400000%float (MktAdjPct a).
Proof.
  assert (H : 0 <= 0) by lia.
  split; [exact H|].
  exact (zero_threshold_applies_to_all scenario_B_index Col_Smoothed (mkdate 2024 5 9)
           0 (mkcomp "7 Oak Ave" (mkdate 2024 5 9) 400000%float) H).
Defined.


Lemma flag_reason_records_the_flags_witness :
  let diagnostics := run_diagnostics np_log_at_examples lu_inverse pinv_rank_one in
  let row := mkflagged (mkdate 2024 1 1) 100000%float false false false false ""%string in
  (In row (diagnostics one_sale_table false 1%float true)
   /\ In row (diagnostics one_sale_table false 1%float false))
  /\ (FlagReason row = ""%string <-> Flagged row = false)
  /\ (FlagReason row = FlagReason row ->
      IQR_Outlier row = IQR_Outlier row
      /\ Row_HighLeverage row = Row_HighLeverage row
      /\ Row_HighCooksD row = Row_HighCooksD row
      /\ Flagged row = Flagged row).
Proof.
  intros diagnostics row.
  assert (H1 : In row (diagnostics one_sale_table false 1%float true))
    by (left; reflexivity).
  assert (H2 : In row (diagnostics one_sale_table false 1%float false))
    by (left; reflexivity).
  split; [split; assumption|].
  exact (flag_reason_records_the_flags np_log_at_examples lu_inverse pinv_rank_one
           one_sale_table one_sale_table false false 1%float 1%float
           true false row row H1 H2).
Defined.

Lemma history_keys_stay_unique_witness :
  NoDup (map report_key two_reports)
  /\ NoDup (map report_key (save_report_to_history two_reports elm_again)).
Proof.
  assert (H : NoDup (map report_key two_reports)).
  { simpl. constructor; [|constructor; [intros []|constructor]].
    intros [E|[]]. discriminate. }
  split; [exact H|].
  exact (history_keys_stay_unique two_reports elm_again H).
Defined.

Lemma resaved_report_replaces_in_place_witness :
  ((length two_reports <= 50)%nat /\ existing_idx elm_again two_reports = Some 1%nat)
  /\ length (save_report_to_history two_reports elm_again) = length two_reports
  /\ nth_error (save_report_to_history two_reports elm_again) 1 = Some elm_again
  /\ (forall j, j <> 1%nat ->
        nth_error (save_report_to_history two_reports elm_again) j
        = nth_error two_reports j)
  /\ (exists old, nth_error two_reports 1 = Some old
                  /\ report_key old = report_key elm_again)
  /\ (forall j r, (j < 1)%nat -> nth_error two_reports j = Some r ->
                  report_key r <> report_key elm_again).
Proof.
  assert (H1 : (length two_reports <= 50)%nat) by (simpl; lia).
  assert (H2 : existing_idx elm_again two_reports = Some 1%nat) by reflexivity.
  split; [split; assumption|].
  exact (resaved_report_replaces_in_place two_reports elm_again 1 H1 H2).
Defined.

Example save_and_delete :
  save_report_to_history two_reports elm_again
  = [mkreport (Some "20240509120000000000"%string) (Some "7 Oak Ave"%string)
              (Some "2024-05-09"%string) tt; elm_again]
  /\ delete_report_from_history two_reports "20240509120000000000"
     = [mkreport (Some "20240401090000000000"%string) (Some "12 Elm St"%string)
                 (Some "2024-04-01"%string) tt].
Proof. split; reflexivity. Qed.

Lemma save_then_delete_restores_witness :
  (existing_idx new_report two_reports = None
   /\ (length two_reports < 50)%nat
   /\ report_id new_report = Some "20240702101500000000"%string
   /\ (forall r, In r two_reports -> report_id r <> Some "20240702101500000000"%string))
  /\ delete_report_from_history (save_report_to_history two_reports new_report)
                                "20240702101500000000"
     = two_reports.
Proof.
  assert (H1 : existing_idx new_report two_reports = None) by reflexivity.
  assert (H2 : (length two_reports < 50)%nat) by (simpl; lia).
  assert (H3 : report_id new_report = Some "20240702101500000000"%string)
    by reflexivity.
  assert (H4 : forall r, In r two_reports ->
                         report_id r <> Some "20240702101500000000"%string).
  { intros r [<-|[<-|[]]]; discriminate. }
  split; [repeat split; assumption|].
  exact (save_then_delete_restores two_reports new_report "20240702101500000000"
           H1 H2 H3 H4).
Defined.

Lemma zero_residual_never_flagged_witness :
  let regression :=
    cooks_distance_time_regression np_log_at_examples lu_inverse pinv_rank_one in
  let s := (mkdate 2024 1 3, 250000%float) in
  let r := mkdiag (mkdate 2024 1 3) 250000%float 0.18095238095238098%float 0%float
                  false false in
  (nth_error (dropna flat_sales_250) 2 = Some s
   /\ nth_error (regression flat_sales_250) 2 = Some r
   /\ (row_resid np_log_at_examples lu_inverse pinv_rank_one
                 (dropna flat_sales_250) s =? 0)%float = true)
  /\ HighLeverage r = false /\ HighCooksD r = false.
Proof.
  intros regression s r.
  assert (H1 : nth_error (dropna flat_sales_250) 2 = Some s) by reflexivity.
  assert (H2 : nth_error (regression flat_sales_250) 2 = Some r)
    by (vm_compute; reflexivity).
  assert (H3 : (row_resid np_log_at_examples lu_inverse pinv_rank_one
                          (dropna flat_sales_250) s =? 0)%float = true)
    by (vm_compute; reflexivity).
  split; [repeat split; assumption|].
  exact (zero_residual_never_flagged np_log_at_examples lu_inverse pinv_rank_one
           flat_sales_250 2 s r H1 H2 H3).
Defined.
